(** * OpenRTK330 odometry core: CAN signal decoder, wheel-speed readout
    and PPS time-base synchroniser

  Shallow embedding of
    - [Platform/CAN/src/car_data.c]
        ([car_can_initialize], [car_can_data_process], [car_get_wheel_speed])
    - [Platform/OpenRTK330LI/Driver/src/exit.c] ([ST_PPS_IRQ])

  Machine integers are [Z] with the wrap-around written out, C [double]s
  are binary64 primitive floats, globals are record fields threaded
  through every function. *)

From Stdlib Require Import ZArith Lia List Bool.
From Stdlib Require Import PrimFloat SpecFloat FloatOps FloatAxioms.
Import ListNotations.
Local Open Scope Z_scope.
Set Warnings "-inexact-float".

(** ** C integer arithmetic *)

Module CInt.

(** Value of a [w]-bit unsigned object holding [z]. *)
Definition wrap_u (w z : Z) : Z := z mod 2 ^ w.

(** Value of a [w]-bit two's complement object holding [z]. *)
Definition wrap_s (w z : Z) : Z := (z + 2 ^ (w - 1)) mod 2 ^ w - 2 ^ (w - 1).

Definition u8 (z : Z) : Z := wrap_u 8 z.
Definition u32 (z : Z) : Z := wrap_u 32 z.
Definition i32 (z : Z) : Z := wrap_s 32 z.
Definition i64 (z : Z) : Z := wrap_s 64 z.

(** [a << n] on a 32-bit [int].  For [n < 32] the bits that leave the
    word are dropped and bit 31 is the sign; for [n >= 32] the Cortex-M4
    register shift [LSL] yields 0.  (ISO C leaves both the overflowing
    and the over-wide shift undefined; this is what the target does.) *)
Definition shl_int (a n : Z) : Z :=
  if n <? 32 then i32 (Z.shiftl a n) else 0.

End CInt.

(** ** C floating point *)

Module CFloat.

(** Conversion of an integer to [double] (round to nearest even). *)
Definition double_of_Z (z : Z) : float :=
  SF2Prim (binary_normalize prec emax z 0 false).

(** [(float)z / 1000] evaluated in single precision (binary32: 24-bit
    significand), then widened to [double], which is exact. *)
Definition single_of_Z (z : Z) : spec_float := binary_normalize 24 128 z 0 false.
Definition single_div (x y : spec_float) : spec_float := SFdiv 24 128 x y.
Definition double_of_single (x : spec_float) : float := SF2Prim x.

Definition msec_to_sec (msec : Z) : float :=
  double_of_single (single_div (single_of_Z msec) (single_of_Z 1000)).

End CFloat.

(** ** Time base shared by the decoder and the PPS handler *)

(** Modelled from the spec: [mcu_time_base_t] is declared in a header that
    is not among the sources.  Both fields are [time_t] counters (signed;
    64 bits wide here): whole seconds of absolute time and milliseconds
    since the last pulse. *)
Record mcu_time_base_t := mkTimeBase {
  time : Z;
  msec : Z
}.

(** The [gtime_t] argument of the external [time2gpst]: whole seconds and
    fraction of a second. *)
Record gtime_t := mkGtime {
  gt_time : Z;
  gt_sec : float
}.

(** ** Signal decoder and wheel-speed aggregator ([car_data.c]) *)

Module Car.
Import CInt CFloat.

(** Modelled from the spec: [WHEEL_SPEED_STRUCT] is declared in
    [car_data.h], which is not among the sources.  The fields are the ones
    [car_data.c] touches; their types are those of the out-parameters of
    [car_get_wheel_speed] they are copied to ([double] speeds and
    timestamp, [uint8_t] flag and mask, [uint32_t] week). *)
Record WHEEL_SPEED_STRUCT := mkWheelSpeed {
  speed_RR : float;
  speed_RL : float;
  speed_combined : float;
  fwd : Z;
  update : Z;
  week : Z;
  timestamp : float
}.

(** Modelled from the spec: one entry of [gOdoConfigurationStruct.odo_mesg]
    ([user_config.h] is not among the sources).  The integer fields are
    unsigned in C, hence [N]; [factor] and [offset] are floating point. *)
Record odo_mesg_t := mkOdoMesg {
  usage : N;
  mesgID : N;
  startbit : N;
  length : N;
  endian : N;
  sign : N;
  unit : N;
  source : N;
  factor : float;
  offset : float
}.

(** [gOdoConfigurationStruct]: the three descriptors [odo_mesg[0..2]] and
    the four reference values [gears[0..3]]. *)
Record odo_config := mkOdoConfig {
  odo_mesg0 : odo_mesg_t;
  odo_mesg1 : odo_mesg_t;
  odo_mesg2 : odo_mesg_t;
  gears0 : float;
  gears1 : float;
  gears2 : float;
  gears3 : float
}.

(** Everything [car_can_data_process] reads besides its arguments and
    [wheel_speed]: the globals [g_MCU_time], [gps_start_week] and
    [gOdoConfigurationStruct], and the external function [time2gpst], which
    returns the time of week and stores the week through its pointer. *)
Record can_env := mkCanEnv {
  g_MCU_time : mcu_time_base_t;
  gps_start_week : Z;
  time2gpst : gtime_t -> float * Z;
  gOdoConfigurationStruct : odo_config
}.

(** [memset(&wheel_speed, 0, ...); wheel_speed.fwd = 1;] *)
Definition car_can_initialize : WHEEL_SPEED_STRUCT :=
  mkWheelSpeed 0 0 0 1 0 0 0.

(** *** Bit-field extraction (the [while (bitlen > 0)] loop) *)

(** [data[i]] of the 8-byte payload. *)
Definition byte_at (data : list Z) (i : Z) : Z := nth (Z.to_nat i) data 0.

(** The loop variables; all but [value] ([int64_t]) are [uint8_t]. *)
Record extract_state := mkExtract {
  value : Z;
  index_byte : Z;
  index_bitofbyte : Z;
  bitlen : Z
}.

(** One iteration of the loop body. *)
Definition extract_step (data : list Z) (endian bitlent : Z) (s : extract_state)
  : extract_state :=
  let lastbitofbyte :=
    u8 (if 8 <=? index_bitofbyte s + bitlen s then 0
        else 8 - (index_bitofbyte s + bitlen s)) in
  let chunk :=
    Z.land (Z.shiftr (byte_at data (index_byte s)) (index_bitofbyte s))
           (Z.shiftr 255 lastbitofbyte) in
  mkExtract
    (Z.lor (value s) (shl_int chunk (bitlent - bitlen s)))
    (if endian =? 0 then u8 (index_byte s + 1) else u8 (index_byte s - 1))
    0
    (u8 (bitlen s - (8 - index_bitofbyte s - lastbitofbyte))).

(** The loop, unrolled at most [n] times; it is run with [n] the field
    width, which is enough since every iteration consumes at least one bit
    (lemma [extract_loop_exits]). *)
Fixpoint extract_loop (n : nat) (data : list Z) (endian bitlent : Z)
  (s : extract_state) : extract_state :=
  match n with
  | O => s
  | S n' =>
      if 0 <? bitlen s
      then extract_loop n' data endian bitlent (extract_step data endian bitlent s)
      else s
  end.

(** Lines 89-111: the raw field of a descriptor in a payload. *)
Definition extract_field (data : list Z) (endian startbit length : Z) : Z :=
  value (extract_loop (Z.to_nat length) data endian length
           (mkExtract 0 (u8 (startbit / 8)) (u8 (startbit mod 8)) length)).

(** Lines 113-117: the sign step. *)
Definition sign_adjust (sign bitlent v : Z) : Z :=
  if sign =? 1 then
    if negb (Z.land v (shl_int 1 (bitlent - 1)) =? 0)
    then i64 (- i64 (v - shl_int 1 (bitlent - 1)))
    else v
  else v.

(** Lines 70-87: the two tests that make the loop [continue]. *)
Definition descriptor_out_of_range (m : odo_mesg_t) : bool :=
  (64 <=? startbit m)%N || (64 <? length m)%N || (length m =? 0)%N ||
  (2 <=? endian m)%N || (2 <=? sign m)%N || (2 <? unit m)%N ||
  (3 <? source m)%N.

Definition descriptor_misfit (m : odo_mesg_t) : bool :=
  if (endian m =? 0)%N
  then (64 <? startbit m + length m)%N
  else ((startbit m / 8 + 1) * 8 - startbit m mod 8 <? length m)%N.

(** *** Routing of the converted value *)

Definition set_fwd (ws : WHEEL_SPEED_STRUCT) (f : Z) : WHEEL_SPEED_STRUCT :=
  mkWheelSpeed (speed_RR ws) (speed_RL ws) (speed_combined ws)
               f (update ws) (week ws) (timestamp ws).

Definition set_update (ws : WHEEL_SPEED_STRUCT) (u : Z) : WHEEL_SPEED_STRUCT :=
  mkWheelSpeed (speed_RR ws) (speed_RL ws) (speed_combined ws)
               (fwd ws) u (week ws) (timestamp ws).

(** Lines 122-131. *)
Definition route_gear (cfg : odo_config) (svalue : float)
  (ws : WHEEL_SPEED_STRUCT) : WHEEL_SPEED_STRUCT :=
  if (svalue =? gears0 cfg)%float then set_fwd ws 1
  else if (svalue =? gears1 cfg)%float then set_fwd ws 0
  else if (svalue =? gears2 cfg)%float then set_fwd ws 1
  else if (svalue =? gears3 cfg)%float then set_fwd ws 1
  else ws.

(** Lines 134-149; [wk] and [ts] are the locals [week] and [timestamp]. *)
Definition route_speed (unit source : Z) (svalue : float) (wk : Z) (ts : float)
  (ws : WHEEL_SPEED_STRUCT) : WHEEL_SPEED_STRUCT :=
  let svalue :=
    if unit =? 0 then (svalue / 3.6)%float
    else if unit =? 1 then (svalue * 0.44704)%float
    else svalue in
  let rr := if source =? 0 then svalue else speed_RR ws in
  let rl := if source =? 1 then svalue else speed_RL ws in
  let cb := if source =? 2 then svalue else speed_combined ws in
  mkWheelSpeed rr rl cb (fwd ws)
               (u8 (Z.lor (update ws) (shl_int 1 source)))
               (u32 wk) ts.

(** Body of the [for] loop for one descriptor (lines 67-151). *)
Definition process_mesg (cfg : odo_config) (wk : Z) (ts : float)
  (stdId : Z) (data : list Z) (m : odo_mesg_t) (ws : WHEEL_SPEED_STRUCT)
  : WHEEL_SPEED_STRUCT :=
  if negb (usage m =? 85)%N then ws
  else if negb (Z.of_N (mesgID m) =? stdId) then ws
  else if descriptor_out_of_range m then ws
  else if descriptor_misfit m then ws
  else
    let v := extract_field data (Z.of_N (endian m)) (Z.of_N (startbit m))
                           (Z.of_N (length m)) in
    let v := sign_adjust (Z.of_N (sign m)) (Z.of_N (length m)) v in
    let svalue := ((double_of_Z v + offset m) * factor m)%float in
    if (source m =? 3)%N then route_gear cfg svalue ws
    else route_speed (Z.of_N (unit m)) (Z.of_N (source m)) svalue wk ts ws.

(** Lines 48-51: the time stamp and week resolved for this frame. *)
Definition resolve_time (env : can_env) : float * Z :=
  let start_time := g_MCU_time env in
  time2gpst env (mkGtime (time start_time) (msec_to_sec (msec start_time))).

(** [void car_can_data_process(uint32_t stdId, uint8_t* data)], as a
    transformer of the global [wheel_speed]. *)
Definition car_can_data_process (env : can_env) (stdId : Z) (data : list Z)
  (ws : WHEEL_SPEED_STRUCT) : WHEEL_SPEED_STRUCT :=
  let '(ts, wk) := resolve_time env in
  if (gps_start_week env =? -1) || (ts <? 0)%float then ws
  else
    let cfg := gOdoConfigurationStruct env in
    let step := process_mesg cfg wk ts stdId data in
    step (odo_mesg2 cfg) (step (odo_mesg1 cfg) (step (odo_mesg0 cfg) ws)).

(** *** Readout *)

(** The four objects behind the pointer arguments of
    [car_get_wheel_speed]; they keep their previous contents where the
    function does not store. *)
Record sample := mkSample {
  car_speed : float;
  s_fwd : Z;
  s_week : Z;
  s_timestamp : float
}.

(** [uint8_t car_get_wheel_speed(double *car_speed, uint8_t *fwd,
    uint32_t *week, double *timestamp)]: the return value, the global
    afterwards and the pointed-to objects afterwards. *)
Definition car_get_wheel_speed (ws : WHEEL_SPEED_STRUCT) (out : sample)
  : Z * WHEEL_SPEED_STRUCT * sample :=
  if 3 <=? update ws then
    let spd :=
      if Z.land (update ws) 3 =? 3 then
        ((speed_RR ws + speed_RL ws) * 0.5)%float
      else if negb (Z.land (update ws) (Z.shiftl 1 2) =? 0) then
        speed_combined ws
      else car_speed out in
    (1, set_update ws 0,
     mkSample spd (fwd ws) (week ws) (timestamp ws))
  else (0, ws, out).

Definition ret (r : Z * WHEEL_SPEED_STRUCT * sample) : Z := fst (fst r).
Definition state_after (r : Z * WHEEL_SPEED_STRUCT * sample) := snd (fst r).
Definition outputs (r : Z * WHEEL_SPEED_STRUCT * sample) := snd r.

(** Number of report bits (bit 0 rearRight, bit 1 rearLeft, bit 2
    combined) set in a mask. *)
Definition report_bits (u : Z) : Z :=
  Z.b2z (Z.testbit u 0) + Z.b2z (Z.testbit u 1) + Z.b2z (Z.testbit u 2).

(** *** The worked scenario of the specification

    Message 0x100 carries two 16-bit little-endian unsigned speeds in km/h
    with scale 0.01 and offset -6767: rearRight at bit 0 and rearLeft at
    bit 16.  Message 0x120 carries a 4-bit gear selector in the low nibble
    of byte 2. *)
Definition scenario_rr : odo_mesg_t :=
  mkOdoMesg 85 256 0 16 0 0 0 0 0.01 (-6767).
Definition scenario_rl : odo_mesg_t :=
  mkOdoMesg 85 256 16 16 0 0 0 1 0.01 (-6767).
Definition scenario_gear : odo_mesg_t :=
  mkOdoMesg 85 288 16 4 0 0 2 3 1 0.
Definition scenario_cfg : odo_config :=
  mkOdoConfig scenario_rr scenario_rl scenario_gear 1 2 3 4.

(** A resolver in the manner of [time2gpst]: seconds since the start of
    week 0 split into week and time of week. *)
Definition scenario_time2gpst (t : gtime_t) : float * Z :=
  let w := gt_time t / 604800 in
  ((double_of_Z (gt_time t - w * 604800) + gt_sec t)%float, w).

Definition scenario_env (start_week : Z) : can_env :=
  mkCanEnv (mkTimeBase 1270080100 250) start_week scenario_time2gpst scenario_cfg.

Definition scenario_payload : list Z := [175; 26; 175; 26; 0; 0; 0; 0].

(** States of [wheel_speed] that initialisation, frames and readouts can
    produce. *)
Inductive reachable : WHEEL_SPEED_STRUCT -> Prop :=
| reach_init : reachable car_can_initialize
| reach_frame env stdId data ws :
    reachable ws -> reachable (car_can_data_process env stdId data ws)
| reach_readout ws out :
    reachable ws -> reachable (state_after (car_get_wheel_speed ws out)).

End Car.

(** ** The bit field a descriptor denotes (specification side)

    These definitions follow the specification's words, not the code: a
    field is [bitLength] consecutive bits of the payload read as one 64-bit
    number, its least significant bit being bit [startBit mod 8] of byte
    [startBit / 8] and its more significant bits lying in the following
    bytes (little-endian) or the preceding ones (big-endian); "encoding a
    known integer at that position and width" overwrites those bits.  They
    are what the extraction loop is compared with. *)

Module FieldSpec.

(** A byte list as a number, first byte least significant. *)
Fixpoint le_number (data : list Z) : Z :=
  match data with
  | [] => 0
  | b :: rest => b + 256 * le_number rest
  end.

(** The [n] low bytes of a number, least significant first. *)
Fixpoint le_bytes (n : nat) (z : Z) : list Z :=
  match n with
  | O => []
  | S n' => z mod 256 :: le_bytes n' (z / 256)
  end.

(** The payload as a number: little-endian descriptors count byte 0 as the
    least significant byte, big-endian ones byte 7. *)
Definition payload_number (endian : Z) (data : list Z) : Z :=
  if endian =? 0 then le_number data else le_number (rev data).

Definition payload_of_number (endian : Z) (z : Z) : list Z :=
  if endian =? 0 then le_bytes 8 z else rev (le_bytes 8 z).

(** Position, in the payload number, of bit [startbit mod 8] of byte
    [startbit / 8]. *)
Definition field_lsb (endian startbit : Z) : Z :=
  if endian =? 0 then startbit
  else 8 * (7 - startbit / 8) + startbit mod 8.

(** The integer stored in the field. *)
Definition encoded_field (data : list Z) (endian startbit length : Z) : Z :=
  Z.land (Z.shiftr (payload_number endian data) (field_lsb endian startbit))
         (Z.ones length).

(** The payload with [v] stored in the field and every other bit kept. *)
Definition encode_field (data : list Z) (endian startbit length v : Z) : list Z :=
  let pos := field_lsb endian startbit in
  payload_of_number endian
    (Z.lor (Z.land (payload_number endian data)
                   (Z.lnot (Z.shiftl (Z.ones length) pos)))
           (Z.shiftl (Z.land v (Z.ones length)) pos)).

(** Eight bytes, each within 0..255. *)
Definition wf_payload (data : list Z) : Prop :=
  List.length data = 8%nat /\ Forall (fun b => 0 <= b < 256) data.

(** The descriptor checks of lines 70-87 that concern the field. *)
Definition valid_field (endian startbit length : Z) : Prop :=
  (endian = 0 \/ endian = 1) /\ 0 <= startbit < 64 /\ 1 <= length <= 64 /\
  (endian = 0 -> startbit + length <= 64) /\
  (endian = 1 -> length <= (startbit / 8 + 1) * 8 - startbit mod 8).

End FieldSpec.

(** ** The invariant of the extraction loop *)

Module LoopInvariant.
Import Car FieldSpec.

(** Position, in the payload number, of bit 0 of byte [i]. *)
Definition byte_weight (endian i : Z) : Z :=
  if endian =? 0 then 8 * i else 8 * (7 - i).

(** After some iterations over a field of [L] bits whose least significant
    bit is bit [pos] of the payload number: the bits already consumed are
    the low [L - bitlen] bits of the field, and the loop variables point at
    the next bit, which is bit 0 of its byte except possibly in the first
    iteration, where the field must then reach the top of the byte. *)
Definition extract_inv (data : list Z) (endian pos L : Z) (s : extract_state)
  : Prop :=
  0 <= bitlen s <= L /\
  value s = (payload_number endian data / 2 ^ pos) mod 2 ^ (L - bitlen s) /\
  (0 < bitlen s ->
   0 <= index_byte s < 8 /\ 0 <= index_bitofbyte s < 8 /\
   byte_weight endian (index_byte s) + index_bitofbyte s = pos + (L - bitlen s) /\
   (index_bitofbyte s = 0 \/ 8 <= index_bitofbyte s + bitlen s)).

End LoopInvariant.

(** ** PPS time-base synchroniser ([exit.c]) *)

Module Pps.
Import CInt.

(** The globals [ST_PPS_IRQ] reads or writes; [htim_sensor_CNT] is the
    register [htim_sensor.Instance->CNT]. *)
Record pps_globals := mkPpsGlobals {
  g_MCU_time : mcu_time_base_t;
  g_obs_rcv_time : mcu_time_base_t;
  g_pps_flag : Z;
  usCnt : Z;
  htim_sensor_CNT : Z
}.

(** What the handler is built with and what its external calls return at
    this interrupt: the macro [BAREMETAL_OS], the semaphore handle
    [dataAcqSem], the pin level read by [HAL_GPIO_ReadPin], and the results
    of [get_gnss_signal_flag] and [get_obs_time]. *)
Record pps_env := mkPpsEnv {
  BAREMETAL_OS : bool;
  dataAcqSem : Z;
  PPSstate : Z;
  get_gnss_signal_flag : Z;
  get_obs_time : Z
}.

(** Calls that act outside the globals above, in program order. *)
Inductive effect :=
| OSEnterISR
| LED_PPS_TOOGLE
| DRDY_Toggle
| release_sem (sem : Z)
| HAL_GPIO_EXTI_IRQHandler
| OSExitISR.

Definition is_release (e : effect) : bool :=
  match e with release_sem _ => true | _ => false end.

(** Lines 69-77: the semaphore is released under three guards. *)
Definition maybe_release (env : pps_env) (g : pps_globals) : list effect :=
  if msec (g_MCU_time g) <? 500 then
    if BAREMETAL_OS env then []
    else if negb (dataAcqSem env =? 0) then [release_sem (dataAcqSem env)]
    else []
  else [].

(** [g_MCU_time.msec - g_obs_rcv_time.msec] on line 85, where
    [g_MCU_time.msec] has just been set to 500. *)
Definition elapsed_since_latch (g : pps_globals) : Z :=
  i64 (500 - msec (g_obs_rcv_time g)).

(** The condition of line 85. *)
Definition latch_guard (env : pps_env) (g : pps_globals) : bool :=
  negb (get_gnss_signal_flag env =? 0)
  && (0 <=? elapsed_since_latch g)
  && (time (g_MCU_time g) =? time (g_obs_rcv_time g)).

(** Lines 67-88: the falling-edge branch. *)
Definition falling_edge (env : pps_env) (g : pps_globals) : pps_globals :=
  let t := if latch_guard env g then get_obs_time env else time (g_MCU_time g) in
  mkPpsGlobals (mkTimeBase t 500) (g_obs_rcv_time g) 1 0 0.

(** [void ST_PPS_IRQ(void)]: the globals afterwards and the external calls
    made. *)
Definition ST_PPS_IRQ (env : pps_env) (g : pps_globals)
  : pps_globals * list effect :=
  if PPSstate env =? 0 then
    (falling_edge env g,
     [OSEnterISR; LED_PPS_TOOGLE; DRDY_Toggle] ++ maybe_release env g
       ++ [HAL_GPIO_EXTI_IRQHandler; OSExitISR])
  else
    (mkPpsGlobals (g_MCU_time g) (g_obs_rcv_time g) 1 (usCnt g) (htim_sensor_CNT g),
     [OSEnterISR; LED_PPS_TOOGLE; DRDY_Toggle; HAL_GPIO_EXTI_IRQHandler; OSExitISR]).

(** Whether the handler released the data-acquisition semaphore. *)
Definition released (r : pps_globals * list effect) : bool :=
  existsb is_release (snd r).

End Pps.

(** ** The rest of [car_data.c] and [exit.c] *)

Module CarMore.
Import CInt Car LoopInvariant.

(** What [can_config_filter_car] does outside its own locals: the
    assignment to the global [filterNum] and the calls to the transport
    layer. *)
Inductive can_effect :=
| filterNum_assign (v : Z)
| can_config_filter_list_message (id : N) (arg : Z).

(** [void can_config_filter_car(void)]: its effects, in order. *)
Definition can_config_filter_car (cfg : odo_config) : list can_effect :=
  let call m :=
    if (usage m =? 85)%N then [can_config_filter_list_message (mesgID m) 0]
    else [] in
  filterNum_assign 0
    :: call (odo_mesg0 cfg) ++ call (odo_mesg1 cfg) ++ call (odo_mesg2 cfg).

(** The identifiers handed to the transport layer. *)
Definition admitted_ids (cfg : odo_config) : list Z :=
  flat_map (fun e => match e with
                     | can_config_filter_list_message id _ => [Z.of_N id]
                     | filterNum_assign _ => []
                     end)
           (can_config_filter_car cfg).

(** The subscripts [index_byte] at which the extraction loop reads
    [data[index_byte]], one per iteration, in order. *)
Fixpoint extract_reads (n : nat) (data : list Z) (endian bitlent : Z)
  (s : extract_state) : list Z :=
  match n with
  | O => []
  | S n' =>
      if 0 <? bitlen s
      then index_byte s
             :: extract_reads n' data endian bitlent
                  (extract_step data endian bitlent s)
      else []
  end.

Definition field_reads (data : list Z) (endian startbit length : Z) : list Z :=
  extract_reads (Z.to_nat length) data endian length
    (mkExtract 0 (u8 (startbit / 8)) (u8 (startbit mod 8)) length).

(** What holds of the loop variables whenever the loop test is evaluated,
    for any field width up to 64 and any alignment: the bits still to be
    read end where the field ends, bit [pos + L] of the payload number. *)
Definition reads_inv (endian pos L : Z) (s : extract_state) : Prop :=
  0 <= bitlen s <= 64 /\ 0 <= index_bitofbyte s < 8 /\
  (0 < bitlen s ->
   0 <= index_byte s < 8 /\
   byte_weight endian (index_byte s) + index_bitofbyte s + bitlen s = pos + L).

(** A descriptor the decoder acts on for a frame with identifier [stdId]
    (the four tests of lines 67-87). *)
Definition accepted (m : odo_mesg_t) (stdId : Z) : bool :=
  (usage m =? 85)%N && (Z.of_N (mesgID m) =? stdId)
  && negb (descriptor_out_of_range m) && negb (descriptor_misfit m).

End CarMore.

Module PpsMore.
Import Pps.

(** The [__weak] defaults of lines 30-37, used unless the application
    links its own. *)
Definition weak_get_gnss_signal_flag : Z := 0.
Definition weak_get_obs_time : Z := 0.

(** The handler run once per edge, each with its own readings of the pin
    and of the external functions, with nothing else writing the globals in
    between; the external calls of all runs, in order. *)
Fixpoint pps_run (envs : list pps_env) (g : pps_globals)
  : pps_globals * list effect :=
  match envs with
  | [] => (g, [])
  | env :: rest =>
      let r := ST_PPS_IRQ env g in
      let r' := pps_run rest (fst r) in
      (fst r', snd r ++ snd r')
  end.

End PpsMore.

(** ** Jacobi eigen-solver ([Lib/Math/src/TransformationMath.c]) *)

Module Eig.
Import CInt.

(** A C [float] is represented by the [double] it converts to. *)

(** [(float)x]: a [double] rounded to single precision. *)
Definition to_single (x : float) : float :=
  match Prim2SF x with
  | S754_finite s m e => SF2Prim (binary_round 24 128 s m e)
  | _ => x
  end.

(** [x - y] on two [float]s. *)
Definition single_sub (x y : float) : float :=
  SF2Prim (SFsub 24 128 (Prim2SF x) (Prim2SF y)).

(** [a[k]] and [a[k] = x] on an array held as a list; outside the array
    (undefined in C) a read gives 0 and a write does nothing. *)
Definition aget (a : list float) (k : Z) : float :=
  if k <? 0 then 0%float else nth (Z.to_nat k) a 0%float.

Fixpoint upd (a : list float) (k : nat) (x : float) : list float :=
  match a, k with
  | [], _ => []
  | _ :: rest, O => x :: rest
  | y :: rest, S k' => y :: upd rest k' x
  end.

Definition aset (a : list float) (k : Z) (x : float) : list float :=
  if k <? 0 then a else upd a (Z.to_nat k) x.

(** [i * n + j] on [int]s. *)
Definition idx (i n j : Z) : Z := i32 (i32 (i * n) + j).

(** The values [0, 1, ..., n - 1] a loop [for (i = 0; i <= n - 1; i++)]
    runs through, none for [n <= 0] ([n - 1] is taken not to overflow:
    [n] is above [INT_MIN]). *)
Definition ints (n : Z) : list Z := map Z.of_nat (seq 0 (Z.to_nat n)).

(** Lines 503-513: [v] becomes the identity. *)
Definition init_row (n : Z) (v : list float) (i : Z) : list float :=
  fold_left (fun v j => if negb (i =? j) then aset v (idx i n j) 0%float else v)
            (ints n) (aset v (idx i n i) 1%float).

Definition init_v (n : Z) (v : list float) : list float :=
  fold_left (init_row n) (ints n) v.

(** Lines 516-529: the largest off-diagonal magnitude [fm] and where it
    is, [p] and [q] keeping their values when nothing exceeds 0. *)
Definition scan_cell (a : list float) (n : Z) (st : float * Z * Z) (i j : Z)
  : float * Z * Z :=
  let '(fm, p, q) := st in
  let d := abs (aget a (idx i n j)) in
  if negb (i =? j) && (fm <? d)%float then (d, i, j) else st.

Definition scan (a : list float) (n p q : Z) : float * Z * Z :=
  fold_left (fun st i => fold_left (fun st j => scan_cell a n st i j) (ints n) st)
            (ints n) (0%float, p, q).

(** Lines 539-587: one rotation. *)
Definition rotate_pair (cn sn : float) (a : list float) (u w : Z) : list float :=
  let fm := aget a u in
  let a := aset a u (to_single (fm * cn + aget a w * sn)%float) in
  aset a w (to_single (- fm * sn + aget a w * cn)%float).

Definition rotate (a v : list float) (n p q : Z) : list float * list float :=
  let u := idx p n q in
  let w := idx p n p in
  let t := idx q n p in
  let s := idx q n q in
  let x := (- aget a u)%float in
  let y := (single_sub (aget a s) (aget a w) / 2)%float in
  let omega := (x / sqrt (x * x + y * y))%float in
  let omega := if (y <? 0)%float then (- omega)%float else omega in
  let sn := (1 + sqrt (1 - omega * omega))%float in
  let sn := (omega / sqrt (2 * sn))%float in
  let cn := sqrt (1 - sn * sn)%float in
  let fm := aget a w in
  let a := aset a w (to_single (fm * cn * cn + aget a s * sn * sn + aget a u * omega)%float) in
  let a := aset a s (to_single (fm * sn * sn + aget a s * cn * cn - aget a u * omega)%float) in
  let a := aset a u 0%float in
  let a := aset a t 0%float in
  let a := fold_left (fun a j => if negb (j =? p) && negb (j =? q)
                                 then rotate_pair cn sn a (idx p n j) (idx q n j)
                                 else a) (ints n) a in
  let a := fold_left (fun a i => if negb (i =? p) && negb (i =? q)
                                 then rotate_pair cn sn a (idx i n p) (idx i n q)
                                 else a) (ints n) a in
  let v := fold_left (fun v i => rotate_pair cn sn v (idx i n p) (idx i n q))
                     (ints n) v in
  (a, v).

(** The [while (1)] loop, at most [fuel] scans; [None] if none of them
    returned. *)
Fixpoint eig_loop (fuel : nat) (a v : list float) (n : Z) (eps : float)
  (jt l p q : Z) : option (Z * list float * list float) :=
  match fuel with
  | O => None
  | S fuel' =>
      let '(fm, p, q) := scan a n p q in
      if (fm <? eps)%float then Some (1, a, v)
      else if jt <? l then Some (-1, a, v)
      else
        let '(a', v') := rotate a v n p q in
        eig_loop fuel' a' v' n eps jt (i32 (l + 1)) p q
  end.

(** [int realSymmetricMtxEig(float *a, int n, float *v, float eps, int jt)]:
    the return value and the arrays [a] and [v] afterwards. *)
Definition realSymmetricMtxEig (fuel : nat) (a : list float) (n : Z)
  (v : list float) (eps : float) (jt : Z) : option (Z * list float * list float) :=
  eig_loop fuel a (init_v n v) n eps jt 1 0 0.

End Eig.

(** * Properties *)

Module CIntFacts.
Import CInt.

Lemma wrap_u_range w z : 0 <= w -> 0 <= wrap_u w z < 2 ^ w.
Proof. intros Hw. unfold wrap_u. apply Z.mod_pos_bound. lia. Qed.

Lemma wrap_u_small w z : 0 <= z < 2 ^ w -> wrap_u w z = z.
Proof. intros H. unfold wrap_u. now apply Z.mod_small. Qed.

Lemma wrap_s_small w z :
  0 < w -> - 2 ^ (w - 1) <= z < 2 ^ (w - 1) -> wrap_s w z = z.
Proof.
  intros Hw H. unfold wrap_s.
  assert (E : 2 ^ w = 2 * 2 ^ (w - 1)).
  { replace w with (Z.succ (w - 1)) at 1 by lia. apply Z.pow_succ_r. lia. }
  rewrite Z.mod_small; lia.
Qed.

Lemma u8_small z : 0 <= z < 256 -> u8 z = z.
Proof. intros H. apply wrap_u_small. exact H. Qed.

Lemma i32_small z : - 2 ^ 31 <= z < 2 ^ 31 -> i32 z = z.
Proof. intros H. apply wrap_s_small; simpl; lia. Qed.

Lemma i64_small z : - 2 ^ 63 <= z < 2 ^ 63 -> i64 z = z.
Proof. intros H. apply wrap_s_small; simpl; lia. Qed.

End CIntFacts.

(** ** Halving a [double] *)

Module FloatFacts.

Lemma iter_pos_iter {A} (f : A -> A) n : forall x, iter_pos f n x = Pos.iter f x n.
Proof.
  induction n as [n IH | n IH |]; intros x; cbn [iter_pos Pos.iter].
  - rewrite !IH. now rewrite <- !Pos.iter_swap.
  - now rewrite !IH.
  - reflexivity.
Qed.

Lemma shr_exact m k :
  iter_pos shr_1 k (Build_shr_record (Z.pos (Pos.iter xO m k)) false false)
  = Build_shr_record (Z.pos m) false false.
Proof.
  rewrite iter_pos_iter. induction k as [|k IH] using Pos.peano_ind.
  - reflexivity.
  - rewrite Pos.iter_succ_r. rewrite Pos.iter_succ. cbn [shr_1 orb]. exact IH.
Qed.

Lemma digits_shifted m k :
  Z.pos (digits2_pos (Pos.iter xO m k)) = Z.pos (digits2_pos m) + Z.pos k.
Proof.
  induction k as [|k IH] using Pos.peano_ind.
  - cbn [Pos.iter digits2_pos]. lia.
  - rewrite Pos.iter_succ. cbn [digits2_pos]. lia.
Qed.

Lemma round_canonical s m e :
  fexp prec emax (Z.pos (digits2_pos m) + e) = e -> e <= emax - prec ->
  binary_round_aux prec emax s (Z.pos m) e loc_Exact = S754_finite s m e.
Proof.
  intros C B. unfold binary_round_aux, shr_fexp. cbn [Zdigits2].
  rewrite C, Z.sub_diag. cbn [shr shr_record_of_loc shr_m loc_of_shr_record round_nearest_even Zdigits2].
  rewrite C, Z.sub_diag. cbn [shr shr_record_of_loc shr_m].
  apply Z.leb_le in B. now rewrite B.
Qed.

Lemma round_shifted s m k e :
  fexp prec emax (Z.pos (digits2_pos m) + e) = e -> e <= emax - prec ->
  binary_round_aux prec emax s (Z.pos (Pos.iter xO m k)) (e - Z.pos k) loc_Exact
  = S754_finite s m e.
Proof.
  intros C B. unfold binary_round_aux, shr_fexp. cbn [Zdigits2].
  rewrite digits_shifted.
  replace (Z.pos (digits2_pos m) + Z.pos k + (e - Z.pos k))
    with (Z.pos (digits2_pos m) + e) by lia.
  rewrite C. replace (e - (e - Z.pos k)) with (Z.pos k) by lia.
  cbn [shr shr_record_of_loc]. rewrite shr_exact.
  cbn [shr_m loc_of_shr_record round_nearest_even Zdigits2].
  replace (e - Z.pos k + Z.pos k) with e by lia.
  rewrite C, Z.sub_diag. cbn [shr shr_record_of_loc shr_m].
  apply Z.leb_le in B. now rewrite B.
Qed.

Lemma quotient_by_pow2 a k q r :
  0 <= r < 2 ^ 52 -> a * 2 ^ k = 2 ^ 52 * q + r -> 0 <= k ->
  Z.div_eucl (Z.shiftl a k) 4503599627370496 = (q, r).
Proof.
  intros Hr E Hk. rewrite Z.shiftl_mul_pow2 by lia.
  pose proof (Z_div_mod (a * 2 ^ k) 4503599627370496 eq_refl) as DM.
  destruct (Z.div_eucl (a * 2 ^ k) 4503599627370496) as [q' r'].
  change (2 ^ 52) with 4503599627370496 in *.
  f_equal; nia.
Qed.

(** On a finite number: three cases by exponent.  Above the two lowest
    binades both results are [m] at exponent [e - 1]; at the lowest
    exponent both drop the last bit of [m] and round it the same way. *)
Lemma SF_half_quotient s m e :
  valid_binary (S754_finite s m e) = true ->
  SF64mul (S754_finite s m e) (S754_finite false 4503599627370496 (-53))
  = SF64div (S754_finite s m e) (S754_finite false 4503599627370496 (-51)).
Proof.
  unfold valid_binary, bounded, canonical_mantissa. intros V.
  apply andb_true_iff in V. destruct V as [C B].
  apply Z.eqb_eq in C. apply Z.leb_le in B.
  unfold SF64mul, SF64div, SFmul, SFdiv.
  rewrite xorb_false_r.
  rewrite (Pos.mul_comm m).
  change (4503599627370496 * m)%positive with (Pos.iter xO m 52).
  unfold SFdiv_core_binary.
  change (Zdigits2 (Zpos 4503599627370496)) with 53.
  cbn [Zdigits2].
  pose proof C as C'. unfold fexp, emin in C'.
  change prec with 53 in C', B. change emax with 1024 in C', B.
  assert (Hd : 1 <= Z.pos (digits2_pos m)) by lia.
  assert (Cases : (-1072 <= e /\ Z.pos (digits2_pos m) = 53) \/
                  (e = -1073 /\ Z.pos (digits2_pos m) = 53) \/
                  (e = -1074 /\ Z.pos (digits2_pos m) <= 53)) by lia.
  assert (Cdown : -1073 <= e -> fexp prec emax (Z.pos (digits2_pos m) + (e - 1)) = e - 1).
  { intros G. unfold fexp, emin. change prec with 53. change emax with 1024. lia. }
  destruct Cases as [[He Hd53] | [[He Hd53] | [He Hd53]]].
  - assert (Hmin : Z.min (fexp prec emax (Z.pos (digits2_pos m) + e - (53 + -51))) (e - -51) = e - 2).
    { unfold fexp, emin. change prec with 53. change emax with 1024. lia. }
    rewrite Hmin.
    replace (e - -51 - (e - 2)) with 53 by lia. cbv iota.
    rewrite (quotient_by_pow2 (Z.pos m) 53 (Z.pos (Pos.iter xO m 1)) 0);
      [| lia | cbn [Pos.iter]; change (2 ^ 53) with 9007199254740992;
               change (2 ^ 52) with 4503599627370496; lia | lia].
    change (new_location 4503599627370496 0) with loc_Exact. cbv beta iota.
    replace (e + -53) with (e - 1 - 52) by lia.
    replace (e - 2) with (e - 1 - 1) by lia.
    rewrite !round_shifted; try reflexivity; try (apply Cdown; lia);
      change emax with 1024; change prec with 53; lia.
  - subst e.
    change (Z.min (fexp prec emax (Z.pos (digits2_pos m) + -1073 - (53 + -51))) (-1073 - -51))
      with (Z.min (Z.max (Z.pos (digits2_pos m) + -1073 - (53 + -51) - 53) (-1074)) (-1022)).
    replace (Z.min (Z.max (Z.pos (digits2_pos m) + -1073 - (53 + -51) - 53) (-1074)) (-1022))
      with (-1074) by lia.
    change (-1073 - -51 - -1074) with 52. cbv iota.
    rewrite (quotient_by_pow2 (Z.pos m) 52 (Z.pos m) 0);
      [| lia | change (2 ^ 52) with 4503599627370496; lia | lia].
    change (new_location 4503599627370496 0) with loc_Exact. cbv beta iota.
    change (-1073 + -53) with (-1074 - 52).
    rewrite round_shifted, round_canonical; try reflexivity;
      try (apply (Cdown ltac:(lia))); change emax with 1024; change prec with 53; lia.
  - subst e.
    assert (Hmin : Z.min (fexp prec emax (Z.pos (digits2_pos m) + -1074 - (53 + -51))) (-1074 - -51) = -1074).
    { unfold fexp, emin. change prec with 53. change emax with 1024. lia. }
    rewrite Hmin. change (-1074 - -51 - -1074) with 51. cbv iota.
    assert (Q : exists (q : Z) (l : bool),
               Z.div_eucl (Z.shiftl (Z.pos m) 51) 4503599627370496 = (q, if l then 2 ^ 51 else 0)
               /\ shr_1 (Build_shr_record (Z.pos m) false false) = Build_shr_record q l false
               /\ 0 <= q /\ Zdigits2 q < 53).
    { destruct m as [p | p |].
      - exists (Z.pos p), true. split; [|split; [reflexivity|]].
        + apply quotient_by_pow2; [now compute | | lia].
          change (2 ^ 52) with 4503599627370496. change (2 ^ 51) with 2251799813685248. lia.
        + cbn [digits2_pos Zdigits2] in *. lia.
      - exists (Z.pos p), false. split; [|split; [reflexivity|]].
        + apply quotient_by_pow2; [now compute | | lia].
          change (2 ^ 52) with 4503599627370496. change (2 ^ 51) with 2251799813685248. lia.
        + cbn [digits2_pos Zdigits2] in *. lia.
      - exists 0, true. split; [|split; [reflexivity|]].
        + reflexivity.
        + cbn. lia. }
    destruct Q as (q & l & Q & S1 & Hq0 & Hq).
    rewrite Q. clear Q.
    assert (NL : new_location 4503599627370496 (if l then 2 ^ 51 else 0)
                 = loc_of_shr_record (Build_shr_record q l false)).
    { destruct l; reflexivity. }
    rewrite NL. clear NL. cbv beta iota.
    unfold binary_round_aux, shr_fexp. cbn [Zdigits2]. rewrite digits_shifted.
    replace (fexp prec emax (Z.pos (digits2_pos m) + 52 + (-1074 + -53)) - (-1074 + -53))
      with (Z.pos (Pos.succ 52))
      by (unfold fexp, emin; change prec with 53; change emax with 1024; lia).
    replace (fexp prec emax (Zdigits2 q + -1074) - -1074) with 0
      by (unfold fexp, emin; change prec with 53; change emax with 1024; lia).
    cbn [shr shr_record_of_loc].
    rewrite iter_pos_iter, Pos.iter_succ, <- iter_pos_iter, shr_exact, S1.
    replace (shr_record_of_loc q (loc_of_shr_record (Build_shr_record q l false)))
      with (Build_shr_record q l false) by (destruct l; reflexivity).
    reflexivity.
Qed.

(** Multiplying by 0.5 and dividing by 2 are the same binary64 operation. *)
Theorem half_is_quotient_by_two (x : float) : (x * 0.5 = x / 2)%float.
Proof.
  apply Prim2SF_inj. rewrite mul_spec, div_spec.
  change (Prim2SF 0.5) with (S754_finite false 4503599627370496 (-53)).
  change (Prim2SF 2) with (S754_finite false 4503599627370496 (-51)).
  pose proof (Prim2SF_valid x) as V.
  destruct (Prim2SF x) as [sg | sg | | sg m e].
  - destruct sg; reflexivity.
  - destruct sg; reflexivity.
  - reflexivity.
  - now apply SF_half_quotient.
Qed.
End FloatFacts.

Module CarFacts.
Import CInt CIntFacts CFloat FloatFacts Car.

Lemma readout_gate ws out :
  ret (car_get_wheel_speed ws out) = 1 <-> 3 <= update ws.
Proof.
  unfold car_get_wheel_speed, ret.
  destruct (3 <=? update ws) eqn:E; simpl.
  - apply Z.leb_le in E. tauto.
  - apply Z.leb_gt in E. split; [discriminate | lia].
Qed.

(** For masks made of the three report bits, the numeric gate [>= 3] is
    "rearRight and rearLeft both reported, or combined reported". *)
Lemma gate_on_report_masks u :
  0 <= u < 8 ->
  (3 <= u <-> (Z.testbit u 0 && Z.testbit u 1) || Z.testbit u 2 = true).
Proof.
  intros Hu.
  assert (C : u = 0 \/ u = 1 \/ u = 2 \/ u = 3 \/ u = 4 \/ u = 5 \/ u = 6 \/ u = 7) by lia.
  repeat (destruct C as [-> | C]); try subst u; simpl; split; intros H;
    try reflexivity; try discriminate; lia.
Qed.

(** C1 (as stated, refuted): the mask 4 carries the combined bit alone, one
    report bit out of three, and the readout still returns a sample; the
    numeric test [>= 3] is therefore not "at least two report bits". *)
Lemma C1_combined_alone_passes :
  ~ (forall ws out,
       ret (car_get_wheel_speed ws out) <> 0 -> 2 <= report_bits (update ws)).
Proof.
  intros H.
  specialize (H (mkWheelSpeed 0 0 0 1 4 0 0) (mkSample 0 0 0 0)).
  assert (A : 2 <= 1); [apply H; discriminate | lia].
Qed.

(** C1 (amended): the readout returns a sample exactly when the update mask
    is numerically at least 3, and returns 0 otherwise; on the masks 0..7
    built from the three report bits this is "rearRight and rearLeft both
    set, or combined set", which two report bits imply but do not
    characterise. *)
Theorem C1_gate_is_numeric ws out :
  (ret (car_get_wheel_speed ws out) = 1 <-> 3 <= update ws) /\
  (ret (car_get_wheel_speed ws out) = 0 <-> update ws < 3) /\
  (0 <= update ws < 8 ->
     (3 <= update ws <->
      (Z.testbit (update ws) 0 && Z.testbit (update ws) 1)
        || Z.testbit (update ws) 2 = true) /\
     (2 <= report_bits (update ws) -> ret (car_get_wheel_speed ws out) = 1)).
Proof.
  split; [apply readout_gate|]. split.
  - unfold car_get_wheel_speed, ret.
    destruct (3 <=? update ws) eqn:E; simpl.
    + apply Z.leb_le in E. split; [discriminate | lia].
    + apply Z.leb_gt in E. tauto.
  - intros Hu. split; [now apply gate_on_report_masks|].
    intros H2. apply readout_gate.
    assert (C : update ws < 3 \/ 3 <= update ws) by lia.
    destruct C as [C|C]; [|exact C]. exfalso.
    assert (D : update ws = 0 \/ update ws = 1 \/ update ws = 2) by lia.
    destruct D as [D|[D|D]]; rewrite D in H2; vm_compute in H2; apply H2; reflexivity.
Qed.

Lemma C1_gate_is_numeric_witness :
  let ws := mkWheelSpeed 0 0 0 1 5 0 0 in
  let out := mkSample 0 0 0 0 in
  (ret (car_get_wheel_speed ws out) = 1 <-> 3 <= update ws) /\
  (ret (car_get_wheel_speed ws out) = 0 <-> update ws < 3) /\
  (3 <= update ws <->
      (Z.testbit (update ws) 0 && Z.testbit (update ws) 1)
        || Z.testbit (update ws) 2 = true) /\
  ret (car_get_wheel_speed ws out) = 1.
Proof.
  intros ws out.
  destruct (C1_gate_is_numeric ws out) as [H1 [H2 H3]].
  assert (Hu : 0 <= update ws < 8) by (simpl; lia).
  destruct (H3 Hu) as [H4 H5].
  split; [exact H1|]. split; [exact H2|]. split; [exact H4|].
  apply H5. vm_compute. discriminate.
Defined.

Lemma land_3_bits u :
  Z.land u 3 = 3 <-> Z.testbit u 0 = true /\ Z.testbit u 1 = true.
Proof.
  split.
  - intros H. split.
    + assert (E : Z.testbit (Z.land u 3) 0 = true) by (rewrite H; reflexivity).
      rewrite Z.land_spec in E. apply andb_true_iff in E. tauto.
    + assert (E : Z.testbit (Z.land u 3) 1 = true) by (rewrite H; reflexivity).
      rewrite Z.land_spec in E. apply andb_true_iff in E. tauto.
  - intros [H0 H1]. apply Z.bits_inj'. intros n Hn.
    rewrite Z.land_spec.
    assert (C : n = 0 \/ n = 1 \/ 2 <= n) by lia.
    destruct C as [-> | [-> | C]].
    + rewrite H0. reflexivity.
    + rewrite H1. reflexivity.
    + rewrite (Z.bits_above_log2 3 n) by (simpl; lia). apply andb_false_r.
Qed.

Lemma land_4_bit u :
  Z.land u (Z.shiftl 1 2) <> 0 <-> Z.testbit u 2 = true.
Proof.
  change (Z.shiftl 1 2) with (2 ^ 2).
  destruct (Z.testbit u 2) eqn:E.
  - split; [reflexivity|]. intros _ H.
    assert (F : Z.testbit (Z.land u (2 ^ 2)) 2 = false) by (rewrite H; reflexivity).
    rewrite Z.land_spec, E in F. discriminate.
  - split; [|discriminate]. intros H. exfalso. apply H.
    apply Z.bits_inj'. intros n Hn. rewrite Z.land_spec, Z.bits_0.
    destruct (Z.eq_dec n 2) as [-> | D].
    + rewrite E. reflexivity.
    + rewrite Z.pow2_bits_false by lia. apply andb_false_r.
Qed.

(** C2: whenever the readout returns a sample, its speed is
    (rearRightSpeed + rearLeftSpeed) / 2 if the rearRight and rearLeft bits
    are both set, else the combined speed if the combined bit is set; and
    its flag, week and time stamp are the stored ones.  (The code halves
    by multiplying with 0.5, see [half_is_quotient_by_two].) *)
Theorem C2_fused_sample ws out :
  ret (car_get_wheel_speed ws out) = 1 ->
  let o := outputs (car_get_wheel_speed ws out) in
  (Z.testbit (update ws) 0 = true /\ Z.testbit (update ws) 1 = true ->
     car_speed o = ((speed_RR ws + speed_RL ws) / 2)%float) /\
  (~ (Z.testbit (update ws) 0 = true /\ Z.testbit (update ws) 1 = true) ->
     Z.testbit (update ws) 2 = true -> car_speed o = speed_combined ws) /\
  s_fwd o = fwd ws /\ s_week o = week ws /\ s_timestamp o = timestamp ws.
Proof.
  intros Hret. apply readout_gate in Hret. apply Z.leb_le in Hret.
  unfold car_get_wheel_speed, outputs. rewrite Hret. cbn [snd car_speed s_fwd s_week s_timestamp].
  repeat split.
  - intros Hb. apply land_3_bits in Hb. apply Z.eqb_eq in Hb. rewrite Hb.
    apply half_is_quotient_by_two.
  - intros Hnb Hc.
    destruct (Z.land (update ws) 3 =? 3) eqn:E3.
    + apply Z.eqb_eq, land_3_bits in E3. contradiction.
    + apply land_4_bit in Hc. apply Z.eqb_neq in Hc. rewrite Hc. reflexivity.
Qed.

Lemma C2_fused_sample_witness :
  let both := mkWheelSpeed 10 12.5 30 1 3 2100 345600.5 in
  let comb := mkWheelSpeed 10 12.5 30 1 6 2100 345600.5 in
  let o := outputs (car_get_wheel_speed both (mkSample 0 0 0 0)) in
  let o' := outputs (car_get_wheel_speed comb (mkSample 0 0 0 0)) in
  car_speed o = ((10 + 12.5) / 2)%float /\ car_speed o' = 30%float /\
  s_fwd o' = 1 /\ s_week o' = 2100 /\ s_timestamp o' = 345600.5%float.
Proof.
  intros both comb o o'.
  destruct (C2_fused_sample both (mkSample 0 0 0 0)) as [Hb _]; [reflexivity|].
  destruct (C2_fused_sample comb (mkSample 0 0 0 0)) as [_ [Hc [Hf [Hw Ht]]]];
    [reflexivity|].
  split; [|split; [|split; [exact Hf | split; [exact Hw | exact Ht]]]].
  - apply Hb. split; reflexivity.
  - apply Hc.
    + vm_compute. intros [H _]. discriminate.
    + reflexivity.
Defined.

(** The gate of lines 48-54. *)
Lemma process_gated env stdId data ws :
  (gps_start_week env =? -1) || (fst (resolve_time env) <? 0)%float = true ->
  car_can_data_process env stdId data ws = ws.
Proof.
  intros H. unfold car_can_data_process.
  destruct (resolve_time env) as [ts wk]. cbn [fst] in H. rewrite H. reflexivity.
Qed.

(** C5 (as stated, refuted): the week the resolver stores through [&week]
    is not what line 52 tests.  With a resolver that reports week -1 and a
    time of week of 100.25 s, and the global [gps_start_week] at 2100, the
    frame 0x100 is decoded: both rear speeds, the update mask, the week and
    the time stamp are written. *)
Lemma C5_resolver_week_not_tested :
  ~ (forall env stdId data ws,
       snd (resolve_time env) = -1 \/ (fst (resolve_time env) <? 0)%float = true ->
       car_can_data_process env stdId data ws = ws).
Proof.
  intros H.
  specialize (H (mkCanEnv (mkTimeBase 1270080100 250) 2100
                          (fun _ => (100.25%float, -1)) scenario_cfg)
                256 scenario_payload car_can_initialize (or_introl eq_refl)).
  apply (f_equal update) in H. vm_compute in H. discriminate.
Qed.

(** C5 (amended): a frame that arrives while the global [gps_start_week]
    is -1 (no valid week yet) or while the time of week the resolver
    returns is negative leaves every field of [wheel_speed] as it was,
    whatever the identifier and the payload. *)
Theorem C5_time_gate env stdId data ws :
  gps_start_week env = -1 \/ (fst (resolve_time env) <? 0)%float = true ->
  car_can_data_process env stdId data ws = ws.
Proof.
  intros [H | H]; apply process_gated; apply orb_true_iff.
  - left. now apply Z.eqb_eq.
  - right. exact H.
Qed.

Lemma C5_time_gate_witness :
  car_can_data_process (scenario_env (-1)) 256 scenario_payload car_can_initialize
  = car_can_initialize.
Proof. apply C5_time_gate. left. reflexivity. Defined.

(** The same frame with a valid start week is decoded: the gate is what
    keeps the state unchanged above. *)
Example scenario_frame_decoded :
  car_can_data_process (scenario_env 2100) 256 scenario_payload car_can_initialize
  = mkWheelSpeed 0.17777777777777778 0.17777777777777778 0 1 3 2100 100.25.
Proof. vm_compute. reflexivity. Qed.

(** *** Frame effects of one descriptor *)

Lemma process_mesg_cases cfg wk ts stdId data m ws :
  process_mesg cfg wk ts stdId data m ws = ws \/
  (exists sv, (source m = 3)%N /\ process_mesg cfg wk ts stdId data m ws = route_gear cfg sv ws) \/
  (exists sv, (source m < 3)%N /\
     process_mesg cfg wk ts stdId data m ws =
     route_speed (Z.of_N (unit m)) (Z.of_N (source m)) sv wk ts ws).
Proof.
  unfold process_mesg.
  destruct (negb (usage m =? 85)%N); [now left|].
  destruct (negb (Z.of_N (mesgID m) =? stdId)); [now left|].
  destruct (descriptor_out_of_range m) eqn:R; [now left|].
  destruct (descriptor_misfit m); [now left|].
  right. destruct (source m =? 3)%N eqn:S3.
  - left. eexists. split; [now apply N.eqb_eq | reflexivity].
  - right. eexists. split; [|reflexivity].
    apply N.eqb_neq in S3.
    unfold descriptor_out_of_range in R.
    repeat (apply orb_false_iff in R; destruct R as [R ?]).
    assert (source m <= 3)%N by (now apply N.ltb_ge). lia.
Qed.

Lemma route_gear_frame cfg sv ws :
  speed_RR (route_gear cfg sv ws) = speed_RR ws /\
  speed_RL (route_gear cfg sv ws) = speed_RL ws /\
  speed_combined (route_gear cfg sv ws) = speed_combined ws /\
  update (route_gear cfg sv ws) = update ws /\
  week (route_gear cfg sv ws) = week ws /\
  timestamp (route_gear cfg sv ws) = timestamp ws.
Proof.
  unfold route_gear.
  destruct (sv =? gears0 cfg)%float; [cbn; tauto|].
  destruct (sv =? gears1 cfg)%float; [cbn; tauto|].
  destruct (sv =? gears2 cfg)%float; [cbn; tauto|].
  destruct (sv =? gears3 cfg)%float; cbn; tauto.
Qed.

(** C10: processing a frame under a gearSelector descriptor (source 3)
    can change the forward flag only; the three speeds, the update mask,
    the week and the time stamp stay as they were, whether or not the
    physical value matches one of the four reference values. *)
Theorem C10_gear_touches_fwd_only cfg wk ts stdId data m ws :
  source m = 3%N ->
  let ws' := process_mesg cfg wk ts stdId data m ws in
  speed_RR ws' = speed_RR ws /\
  speed_RL ws' = speed_RL ws /\
  speed_combined ws' = speed_combined ws /\
  update ws' = update ws /\
  week ws' = week ws /\
  timestamp ws' = timestamp ws.
Proof.
  intros Hs ws'. subst ws'.
  destruct (process_mesg_cases cfg wk ts stdId data m ws) as [E | [[sv [_ E]] | [sv [Hlt _]]]].
  - rewrite E. tauto.
  - rewrite E. apply route_gear_frame.
  - rewrite Hs in Hlt. lia.
Qed.

Lemma C10_gear_touches_fwd_only_witness :
  let ws := mkWheelSpeed 1.5 2.5 3.5 1 3 2100 100.25 in
  let ws' := process_mesg scenario_cfg 2101 7 288 [0; 0; 2; 0; 0; 0; 0; 0]
                          scenario_gear ws in
  fwd ws' = 0 /\
  speed_RR ws' = speed_RR ws /\
  speed_RL ws' = speed_RL ws /\
  speed_combined ws' = speed_combined ws /\
  update ws' = update ws /\
  week ws' = week ws /\
  timestamp ws' = timestamp ws.
Proof.
  intros ws ws'. split; [reflexivity|].
  apply (C10_gear_touches_fwd_only scenario_cfg 2101 7 288
           [0; 0; 2; 0; 0; 0; 0; 0] scenario_gear ws).
  reflexivity.
Defined.

(** *** The update mask stays within the three report bits *)

Lemma lor_report_bit u k :
  0 <= u < 8 -> 0 <= k < 3 -> 0 <= u8 (Z.lor u (shl_int 1 k)) < 8.
Proof.
  intros Hu Hk.
  assert (Cu : u = 0 \/ u = 1 \/ u = 2 \/ u = 3 \/ u = 4 \/ u = 5 \/ u = 6 \/ u = 7) by lia.
  assert (Ck : k = 0 \/ k = 1 \/ k = 2) by lia.
  repeat (destruct Cu as [-> | Cu]); try subst u;
    repeat (destruct Ck as [-> | Ck]); try subst k; vm_compute; split; congruence.
Qed.

Lemma process_mesg_mask cfg wk ts stdId data m ws :
  0 <= update ws < 8 -> 0 <= update (process_mesg cfg wk ts stdId data m ws) < 8.
Proof.
  intros Hu.
  destruct (process_mesg_cases cfg wk ts stdId data m ws) as [E | [[sv [_ E]] | [sv [Hlt E]]]];
    rewrite E.
  - exact Hu.
  - destruct (route_gear_frame cfg sv ws) as [_ [_ [_ [U _]]]]. rewrite U. exact Hu.
  - unfold route_speed. cbn [update]. apply lor_report_bit; lia.
Qed.

Lemma reachable_mask ws : reachable ws -> 0 <= update ws < 8.
Proof.
  induction 1 as [| env stdId data ws _ IH | ws out _ IH].
  - cbn. lia.
  - unfold car_can_data_process.
    destruct (resolve_time env) as [ts wk].
    destruct ((gps_start_week env =? -1) || (ts <? 0)%float); [exact IH|].
    now repeat apply process_mesg_mask.
  - unfold car_get_wheel_speed, state_after.
    destruct (3 <=? update ws); cbn; [lia | exact IH].
Qed.

Lemma readout_none ws out :
  update ws < 3 -> car_get_wheel_speed ws out = (0, ws, out).
Proof.
  intros H. unfold car_get_wheel_speed.
  apply Z.leb_gt in H. rewrite H. reflexivity.
Qed.

Lemma readout_some ws out :
  3 <= update ws ->
  exists spd,
    car_get_wheel_speed ws out
    = (1, set_update ws 0, mkSample spd (fwd ws) (week ws) (timestamp ws)) /\
    ((Z.land (update ws) 3 = 3 /\ spd = ((speed_RR ws + speed_RL ws) * 0.5)%float) \/
     (Z.land (update ws) 3 <> 3 /\ spd = speed_combined ws) \/
     (Z.land (update ws) 3 <> 3 /\ Z.land (update ws) (Z.shiftl 1 2) = 0
        /\ spd = car_speed out)).
Proof.
  intros H. unfold car_get_wheel_speed.
  apply Z.leb_le in H. rewrite H.
  eexists. split; [reflexivity|].
  destruct (Z.land (update ws) 3 =? 3) eqn:E3.
  - left. apply Z.eqb_eq in E3. now split.
  - right. apply Z.eqb_neq in E3.
    destruct (Z.land (update ws) (Z.shiftl 1 2) =? 0) eqn:E4; cbn [negb].
    + right. apply Z.eqb_eq in E4. now repeat split.
    + left. now split.
Qed.

(** C6: a readout either returns 1, stores a complete sample (every one of
    the four outputs is written from the state) and clears the update
    mask, leaving the other fields alone, or returns 0 and leaves both the
    state and the caller's objects untouched; a second readout right after
    the first always returns 0 and changes nothing. *)
Theorem C6_consume_once ws out out2 :
  reachable ws ->
  let r := car_get_wheel_speed ws out in
  let r2 := car_get_wheel_speed (state_after r) out2 in
  ((ret r = 1 /\
    state_after r = set_update ws 0 /\ update (state_after r) = 0 /\
    s_fwd (outputs r) = fwd ws /\ s_week (outputs r) = week ws /\
    s_timestamp (outputs r) = timestamp ws /\
    ((Z.land (update ws) 3 = 3 /\
      car_speed (outputs r) = ((speed_RR ws + speed_RL ws) * 0.5)%float)
     \/ (Z.land (update ws) 3 <> 3 /\
         car_speed (outputs r) = speed_combined ws)))
   \/ (ret r = 0 /\ state_after r = ws /\ outputs r = out))
  /\ ret r2 = 0 /\ state_after r2 = state_after r /\ outputs r2 = out2.
Proof.
  intros Hr r r2. apply reachable_mask in Hr.
  assert (C : update ws < 3 \/ 3 <= update ws) by lia.
  destruct C as [C | C].
  - assert (E : r = (0, ws, out)) by (now apply readout_none).
    assert (E2 : r2 = (0, ws, out2)).
    { subst r2. rewrite E. cbn [state_after fst snd]. now apply readout_none. }
    rewrite E2, E. cbn [ret state_after outputs fst snd].
    split; [right|]; repeat split.
  - destruct (readout_some ws out C) as [spd [E Hspd]]. fold r in E.
    assert (E2 : r2 = (0, set_update ws 0, out2)).
    { subst r2. rewrite E. cbn [state_after fst snd]. apply readout_none. cbn. lia. }
    rewrite E2, E. cbn [ret state_after outputs fst snd car_speed s_fwd s_week s_timestamp].
    split; [left|]; repeat split.
    destruct Hspd as [[H3 H] | [[H3 H] | [H3 [H4 _]]]];
      [left; now split | right; now split |].
    exfalso.
    assert (D : update ws = 3 \/ update ws = 4 \/ update ws = 5
                \/ update ws = 6 \/ update ws = 7) by lia.
    destruct D as [D | [D | [D | [D | D]]]]; rewrite D in H3, H4;
      vm_compute in H3, H4; congruence.
Qed.

Lemma C6_consume_once_witness :
  let ws := car_can_data_process (scenario_env 2100) 256 scenario_payload
              car_can_initialize in
  let r := car_get_wheel_speed ws (mkSample 0 0 0 0) in
  let r2 := car_get_wheel_speed (state_after r) (mkSample 0 0 0 0) in
  ret r = 1 /\ update (state_after r) = 0 /\ ret r2 = 0 /\
  state_after r2 = state_after r.
Proof.
  intros ws r r2.
  destruct (C6_consume_once ws (mkSample 0 0 0 0) (mkSample 0 0 0 0)) as [_ [H2 [H3 _]]].
  - apply reach_frame. apply reach_init.
  - split; [reflexivity|]. split; [reflexivity|]. split; [exact H2 | exact H3].
Defined.

End CarFacts.

(** ** The extraction loop against the field it should read *)

Module ExtractFacts.
Import CInt CIntFacts Car FieldSpec LoopInvariant.

Lemma le_number_nth data :
  Forall (fun b => 0 <= b < 256) data ->
  forall i, (i < List.length data)%nat ->
  (le_number data / 2 ^ (8 * Z.of_nat i)) mod 2 ^ 8 = nth i data 0.
Proof.
  induction 1 as [| b rest Hb _ IH]; intros i Hi; [inversion Hi|].
  cbn [le_number nth]. destruct i as [|i].
  - change (2 ^ (8 * Z.of_nat 0)) with 1. rewrite Z.div_1_r.
    change (2 ^ 8) with 256.
    rewrite (Z.mul_comm 256), Z_mod_plus_full. now apply Z.mod_small.
  - replace (8 * Z.of_nat (S i)) with (8 + 8 * Z.of_nat i) by lia.
    rewrite Z.pow_add_r by lia.
    rewrite <- Z.div_div by lia.
    change (2 ^ 8) with 256.
    replace ((b + 256 * le_number rest) / 256) with (le_number rest).
    + apply IH. cbn in Hi. lia.
    + rewrite (Z.mul_comm 256), Z.div_add by lia.
      rewrite (Z.div_small b 256) by lia. lia.
Qed.

Lemma payload_byte endian data i :
  wf_payload data -> endian = 0 \/ endian = 1 -> 0 <= i < 8 ->
  byte_at data i = (payload_number endian data / 2 ^ byte_weight endian i) mod 2 ^ 8.
Proof.
  intros [Hl Hf] He Hi. unfold byte_at, payload_number, byte_weight.
  destruct He as [-> | ->]; cbn [Z.eqb].
  - replace (8 * i) with (8 * Z.of_nat (Z.to_nat i)) by lia.
    symmetry. apply le_number_nth; [exact Hf | lia].
  - replace (8 * (7 - i)) with (8 * Z.of_nat (Z.to_nat (7 - i))) by lia.
    rewrite le_number_nth.
    + rewrite rev_nth by lia. f_equal. lia.
    + apply Forall_rev. exact Hf.
    + rewrite length_rev. lia.
Qed.

Lemma mod_div_pow2 x a b :
  0 <= b <= a -> (x mod 2 ^ a) / 2 ^ b = (x / 2 ^ b) mod 2 ^ (a - b).
Proof.
  intros H. replace a with (b + (a - b)) at 1 by lia.
  rewrite Z.pow_add_r, Z.rem_mul_r by lia.
  rewrite (Z.mul_comm (2 ^ b)), Z.div_add by lia.
  rewrite Z.div_small; [lia|]. apply Z.mod_pos_bound. lia.
Qed.

Lemma mod_mod_pow2 x a n :
  0 <= n <= a -> (x mod 2 ^ a) mod 2 ^ n = x mod 2 ^ n.
Proof.
  intros H. replace a with (n + (a - n)) by lia.
  rewrite Z.pow_add_r, Z.rem_mul_r by lia.
  rewrite (Z.mul_comm (2 ^ n)), Z_mod_plus_full. apply Z.mod_mod. lia.
Qed.

Lemma lor_shifted a y c :
  0 <= c -> 0 <= a < 2 ^ c -> Z.lor a (Z.shiftl y c) = a + y * 2 ^ c.
Proof.
  intros Hc Ha. rewrite <- Z.shiftl_mul_pow2 by lia.
  assert (D : Z.land a (Z.shiftl y c) = 0).
  { apply Z.bits_inj'. intros n Hn. rewrite Z.land_spec, Z.bits_0.
    destruct (Z.lt_ge_cases n c) as [Lt | Ge].
    - rewrite Z.shiftl_spec_low by lia. apply andb_false_r.
    - rewrite <- (Z.mod_small a (2 ^ c)) by lia.
      rewrite Z.mod_pow2_bits_high by lia. reflexivity. }
  rewrite <- Z.lxor_lor by exact D. symmetry. now apply Z.add_nocarry_lxor.
Qed.

Lemma mod_pow2_extend x c k :
  0 <= c -> 0 <= k ->
  x mod 2 ^ c + ((x / 2 ^ c) mod 2 ^ k) * 2 ^ c = x mod 2 ^ (c + k).
Proof.
  intros Hc Hk. rewrite Z.pow_add_r, Z.rem_mul_r by lia. lia.
Qed.

Lemma low_mask n : 1 <= n <= 7 -> Z.shiftr 255 (8 - n) = Z.ones n.
Proof.
  intros H.
  assert (C : n = 1 \/ n = 2 \/ n = 3 \/ n = 4 \/ n = 5 \/ n = 6 \/ n = 7) by lia.
  repeat (destruct C as [-> | C]); try subst n; reflexivity.
Qed.

Lemma div_pow2_add x a b :
  0 <= a -> 0 <= b -> x / 2 ^ a / 2 ^ b = x / 2 ^ (a + b).
Proof.
  intros Ha Hb. rewrite Z.pow_add_r by lia.
  assert (0 < 2 ^ a) by (apply Z.pow_pos_nonneg; lia).
  assert (0 < 2 ^ b) by (apply Z.pow_pos_nonneg; lia).
  apply Z.div_div; lia.
Qed.

Section Extraction.
Variables (data : list Z) (endian pos L : Z).
Hypothesis Hdata : wf_payload data.
Hypothesis Hendian : endian = 0 \/ endian = 1.
Hypothesis Hpos : 0 <= pos.
Hypothesis Hfit : pos + L <= 64.
Hypothesis Hnarrow : 1 <= L <= 31.

Local Abbreviation X := (payload_number endian data / 2 ^ pos).
Local Abbreviation Inv := (extract_inv data endian pos L).

Lemma byte_bits i o c k :
  0 <= i < 8 -> 0 <= o -> 0 <= c -> 0 <= k -> o + k <= 8 ->
  byte_weight endian i + o = pos + c ->
  (byte_at data i / 2 ^ o) mod 2 ^ k = (X / 2 ^ c) mod 2 ^ k.
Proof.
  intros Hi Ho Hc Hk Hok Hw.
  rewrite (payload_byte endian data i Hdata Hendian Hi).
  rewrite mod_div_pow2 by lia.
  rewrite mod_mod_pow2 by lia.
  assert (Hwt : 0 <= byte_weight endian i).
  { unfold byte_weight. destruct Hendian as [-> | ->]; cbn [Z.eqb]; lia. }
  rewrite !div_pow2_add by lia. now rewrite Hw.
Qed.

Lemma shl_int_small chunk c k :
  0 <= c -> 0 <= k -> c + k <= 31 -> 0 <= chunk < 2 ^ k ->
  shl_int chunk c = chunk * 2 ^ c.
Proof.
  intros Hc Hk Hck Hch. unfold shl_int.
  assert (E : (c <? 32) = true) by (apply Z.ltb_lt; lia). rewrite E.
  rewrite Z.shiftl_mul_pow2 by lia. apply i32_small.
  change (- 2 ^ 31 <= chunk * 2 ^ c < 2 ^ 31).
  assert (P1 : 0 < 2 ^ c) by (apply Z.pow_pos_nonneg; lia).
  assert (P2 : 2 ^ k * 2 ^ c <= 2 ^ 31).
  { rewrite <- Z.pow_add_r by lia. apply Z.pow_le_mono_r; lia. }
  nia.
Qed.

Lemma extract_step_inv s :
  Inv s -> 0 < bitlen s ->
  Inv (extract_step data endian L s) /\
  bitlen (extract_step data endian L s) < bitlen s.
Proof.
  destruct s as [v i o n]. unfold extract_inv. cbn [value index_byte index_bitofbyte bitlen].
  intros (Hn & Hv & Hrest) Hpos'. destruct (Hrest Hpos') as (Hi & Ho & Hw & Hal).
  clear Hrest. unfold extract_step. cbn [value index_byte index_bitofbyte bitlen].
  remember (L - n) as c eqn:Ec.
  assert (Hvr : 0 <= v < 2 ^ c).
  { rewrite Hv. apply Z.mod_pos_bound. apply Z.pow_pos_nonneg; lia. }
  destruct (8 <=? o + n) eqn:E; [apply Z.leb_le in E | apply Z.leb_gt in E].
  - (* the rest of the byte is taken *)
    rewrite (u8_small 0) by lia. rewrite Z.shiftr_0_r.
    change 255 with (Z.ones 8). rewrite Z.land_ones by lia.
    rewrite Z.shiftr_div_pow2 by lia.
    assert (Hch : (byte_at data i / 2 ^ o) mod 2 ^ 8 = (X / 2 ^ c) mod 2 ^ (8 - o)).
    { rewrite <- (byte_bits i o c (8 - o)) by lia.
      rewrite (payload_byte endian data i Hdata Hendian Hi).
      rewrite mod_div_pow2 by lia.
      rewrite !Z.mod_mod; try lia.
      rewrite Z.mod_small; [reflexivity|].
      assert (B := Z.mod_pos_bound (payload_number endian data / 2 ^ byte_weight endian i / 2 ^ o) (2 ^ (8 - o))).
      assert (2 ^ (8 - o) <= 2 ^ 8) by (apply Z.pow_le_mono_r; lia).
      assert (0 < 2 ^ (8 - o)) by (apply Z.pow_pos_nonneg; lia). lia. }
    rewrite Hch.
    rewrite (shl_int_small _ c (8 - o)); try lia;
      [|apply Z.mod_pos_bound; apply Z.pow_pos_nonneg; lia].
    rewrite <- Z.shiftl_mul_pow2 by lia.
    rewrite lor_shifted by lia. rewrite Hv at 1.
    rewrite mod_pow2_extend by lia.
    rewrite (u8_small (n - (8 - o - 0))) by lia.
    split; [|lia]. split; [lia|]. split; [do 2 f_equal; lia|].
    intros Hmore.
    assert (Hw' : byte_weight endian i + 8 < 64) by lia.
    unfold byte_weight in *.
    destruct Hendian as [-> | ->]; cbn [Z.eqb] in *; rewrite u8_small by lia; lia.
  - (* the field ends inside this byte *)
    assert (o = 0) by lia. subst o.
    rewrite (u8_small (8 - (0 + n))) by lia.
    replace (8 - (0 + n)) with (8 - n) by lia.
    rewrite low_mask by lia. rewrite Z.land_ones by lia. rewrite Z.shiftr_0_r.
    assert (Hch : byte_at data i mod 2 ^ n = (X / 2 ^ c) mod 2 ^ n).
    { rewrite <- (byte_bits i 0 c n) by lia. now rewrite Z.div_1_r. }
    rewrite Hch.
    rewrite (shl_int_small _ c n); try lia;
      [|apply Z.mod_pos_bound; apply Z.pow_pos_nonneg; lia].
    rewrite <- Z.shiftl_mul_pow2 by lia.
    rewrite lor_shifted by lia. rewrite Hv at 1.
    rewrite mod_pow2_extend by lia.
    replace (n - (8 - 0 - (8 - n))) with 0 by lia.
    rewrite (u8_small 0) by lia.
    split; [|lia]. split; [lia|]. split; [do 2 f_equal; lia|]. lia.
Qed.

Lemma extract_loop_inv fuel :
  forall s, Inv s -> bitlen s <= Z.of_nat fuel ->
  bitlen (extract_loop fuel data endian L s) = 0 /\
  value (extract_loop fuel data endian L s) = X mod 2 ^ L.
Proof.
  induction fuel as [|fuel IH]; intros s HI Hb; cbn [extract_loop].
  - destruct HI as (Hn & Hv & _).
    assert (E : bitlen s = 0) by lia. split; [exact E|].
    rewrite Hv, E. f_equal. f_equal. lia.
  - destruct (0 <? bitlen s) eqn:G; [apply Z.ltb_lt in G | apply Z.ltb_ge in G].
    + destruct (extract_step_inv s HI G) as [HI' Hlt]. apply IH; [exact HI' | lia].
    + destruct HI as (Hn & Hv & _).
      assert (E : bitlen s = 0) by lia. split; [exact E|].
      rewrite Hv, E. f_equal. f_equal. lia.
Qed.

End Extraction.

Lemma field_lsb_fit endian startbit L :
  valid_field endian startbit L ->
  0 <= field_lsb endian startbit /\ field_lsb endian startbit + L <= 64.
Proof.
  intros (He & Hs & HL & Hle & Hbe). unfold field_lsb.
  destruct He as [-> | ->]; cbn [Z.eqb].
  - specialize (Hle eq_refl). lia.
  - specialize (Hbe eq_refl).
    assert (0 <= startbit / 8 < 8) by (split; [apply Z.div_pos | apply Z.div_lt_upper_bound]; lia).
    assert (0 <= startbit mod 8 < 8) by (apply Z.mod_pos_bound; lia).
    lia.
Qed.

Theorem extract_field_correct data endian startbit L :
  wf_payload data -> valid_field endian startbit L -> L <= 31 ->
  startbit mod 8 = 0 \/ 8 <= startbit mod 8 + L ->
  extract_field data endian startbit L = encoded_field data endian startbit L.
Proof.
  intros Hd Hv HL Hal.
  destruct (field_lsb_fit endian startbit L Hv) as [Hp Hf].
  destruct Hv as (He & Hs & HL1 & Hle & Hbe).
  assert (Hb : 0 <= startbit / 8 < 8)
    by (split; [apply Z.div_pos | apply Z.div_lt_upper_bound]; lia).
  assert (Ho : 0 <= startbit mod 8 < 8) by (apply Z.mod_pos_bound; lia).
  unfold extract_field, encoded_field.
  rewrite Z.shiftr_div_pow2, Z.land_ones by lia.
  apply (extract_loop_inv data endian (field_lsb endian startbit) L Hd He Hp Hf
           (conj (proj1 HL1) HL)).
  - unfold extract_inv. cbn [value index_byte index_bitofbyte bitlen].
    rewrite !u8_small by lia.
    split; [lia|]. split.
    + replace (L - L) with 0 by lia. now rewrite Z.mod_1_r.
    + intros _. split; [exact Hb|]. split; [exact Ho|]. split; [|exact Hal].
      unfold byte_weight, field_lsb.
      destruct He as [-> | ->]; cbn [Z.eqb].
      * pose proof (Z.div_mod startbit 8). lia.
      * lia.
  - cbn [bitlen]. lia.
Qed.


(** *** The loop exits by its own test within [length] iterations *)
Lemma extract_step_decreases data endian L s :
  0 < bitlen s <= 64 -> 0 <= index_bitofbyte s < 8 ->
  0 <= bitlen (extract_step data endian L s) < bitlen s /\
  index_bitofbyte (extract_step data endian L s) = 0.
Proof.
  destruct s as [v i o n]. cbn [bitlen index_bitofbyte]. intros Hn Ho.
  unfold extract_step. cbn [value index_byte index_bitofbyte bitlen].
  split; [|reflexivity].
  destruct (8 <=? o + n) eqn:E; [apply Z.leb_le in E | apply Z.leb_gt in E].
  - rewrite (u8_small 0) by lia. rewrite u8_small by lia. lia.
  - rewrite (u8_small (8 - (o + n))) by lia.
    replace (n - (8 - o - (8 - (o + n)))) with 0 by lia.
    rewrite u8_small by lia. lia.
Qed.

Lemma extract_loop_exits_from data endian L fuel :
  forall s, 0 <= bitlen s <= 64 -> 0 <= index_bitofbyte s < 8 ->
  bitlen s <= Z.of_nat fuel ->
  bitlen (extract_loop fuel data endian L s) = 0.
Proof.
  induction fuel as [|fuel IH]; intros s Hn Ho Hf; cbn [extract_loop].
  - lia.
  - destruct (0 <? bitlen s) eqn:G; [apply Z.ltb_lt in G | apply Z.ltb_ge in G; lia].
    destruct (extract_step_decreases data endian L s) as [Hd Hz]; [lia | exact Ho |].
    apply IH; [lia | rewrite Hz; lia | lia].
Qed.

Lemma extract_loop_exits data endian startbit L :
  0 <= startbit -> 1 <= L <= 64 ->
  bitlen (extract_loop (Z.to_nat L) data endian L
            (mkExtract 0 (u8 (startbit / 8)) (u8 (startbit mod 8)) L)) = 0.
Proof.
  intros Hs HL. apply extract_loop_exits_from; cbn [bitlen index_bitofbyte]; try lia.
  assert (0 <= startbit mod 8 < 8) by (apply Z.mod_pos_bound; lia).
  rewrite u8_small; lia.
Qed.

(** *** Encoding then reading back, on the specification side *)
Lemma le_number_le_bytes n z :
  le_number (le_bytes n z) = z mod 2 ^ (8 * Z.of_nat n).
Proof.
  revert z. induction n as [|n IH]; intros z.
  - cbn. now rewrite Z.mod_1_r.
  - cbn [le_bytes le_number]. rewrite IH.
    replace (8 * Z.of_nat (S n)) with (8 + 8 * Z.of_nat n) by lia.
    rewrite Z.pow_add_r by lia. change (2 ^ 8) with 256.
    rewrite (Z.rem_mul_r z 256); [reflexivity | lia |].
    apply Z.pow_pos_nonneg; lia.
Qed.

Lemma le_bytes_wf n z :
  List.length (le_bytes n z) = n /\ Forall (fun b => 0 <= b < 256) (le_bytes n z).
Proof.
  revert z. induction n as [|n IH]; intros z; cbn [le_bytes List.length].
  - split; [reflexivity | constructor].
  - destruct (IH (z / 256)) as [Hl Hf]. split; [now rewrite Hl|].
    constructor; [apply Z.mod_pos_bound; lia | exact Hf].
Qed.

Lemma payload_of_number_wf endian z : wf_payload (payload_of_number endian z).
Proof.
  unfold wf_payload, payload_of_number.
  destruct (le_bytes_wf 8 z) as [Hl Hf].
  destruct (endian =? 0).
  - now split.
  - split; [now rewrite length_rev | now apply Forall_rev].
Qed.

Lemma payload_number_of_number endian z :
  payload_number endian (payload_of_number endian z) = z mod 2 ^ 64.
Proof.
  unfold payload_number, payload_of_number.
  destruct (endian =? 0); [|rewrite rev_involutive]; apply (le_number_le_bytes 8).
Qed.

Lemma encoded_field_encode data endian startbit L v :
  valid_field endian startbit L ->
  encoded_field (encode_field data endian startbit L v) endian startbit L
  = Z.land v (Z.ones L).
Proof.
  intros Hv. destruct (field_lsb_fit endian startbit L Hv) as [Hp Hf].
  destruct Hv as (_ & _ & HL & _).
  unfold encoded_field, encode_field.
  rewrite payload_number_of_number.
  set (pos := field_lsb endian startbit) in *.
  apply Z.bits_inj'. intros n Hn.
  rewrite !Z.land_spec, Z.shiftr_spec by lia.
  destruct (Z.lt_ge_cases n L) as [Lt | Ge].
  - rewrite Z.ones_spec_low by lia. rewrite !andb_true_r.
    rewrite Z.mod_pow2_bits_low by lia.
    rewrite Z.lor_spec, Z.land_spec, Z.lnot_spec by lia.
    rewrite !Z.shiftl_spec by lia.
    replace (n + pos - pos) with n by lia.
    rewrite Z.land_spec, Z.ones_spec_low by lia.
    cbn [negb]. now rewrite andb_false_r, andb_true_r.
  - rewrite Z.ones_spec_high by lia. now rewrite !andb_false_r.
Qed.

Theorem round_trip_narrow data endian startbit L v :
  valid_field endian startbit L -> L <= 31 ->
  startbit mod 8 = 0 \/ 8 <= startbit mod 8 + L ->
  0 <= v < 2 ^ L ->
  extract_field (encode_field data endian startbit L v) endian startbit L = v.
Proof.
  intros Hv HL Hal Hr.
  rewrite extract_field_correct; try assumption.
  - rewrite encoded_field_encode by assumption.
    rewrite Z.land_ones by (destruct Hv as (_ & _ & ? & _); lia).
    now apply Z.mod_small.
  - apply payload_of_number_wf.
Qed.

(** The theorem at work: a 12-bit big-endian field whose low nibble is
    the high nibble of byte 7 and whose upper byte is byte 6. *)
Example round_trip_big_endian :
  extract_field (encode_field [1; 2; 3; 4; 5; 6; 7; 8] 1 60 12 2748) 1 60 12
  = 2748.
Proof.
  apply round_trip_narrow.
  - unfold valid_field. repeat split; try lia.
    intros _. change (60 / 8) with 7. change (60 mod 8) with 4. lia.
  - lia.
  - right. change (60 mod 8) with 4. lia.
  - change (2 ^ 12) with 4096. lia.
Qed.

(** *** The sign step on fields of at most 31 bits *)
Lemma land_pow2 v k :
  0 <= k -> Z.land v (2 ^ k) = if Z.testbit v k then 2 ^ k else 0.
Proof.
  intros Hk. apply Z.bits_inj'. intros n Hn. rewrite Z.land_spec.
  destruct (Z.eq_dec n k) as [-> | D].
  - rewrite Z.pow2_bits_true by lia. rewrite andb_true_r.
    destruct (Z.testbit v k) eqn:E.
    + now rewrite Z.pow2_bits_true by lia.
    + now rewrite Z.bits_0.
  - rewrite Z.pow2_bits_false by lia. rewrite andb_false_r.
    destruct (Z.testbit v k).
    + now rewrite Z.pow2_bits_false by lia.
    + now rewrite Z.bits_0.
Qed.

Lemma sign_adjust_narrow sign L v :
  1 <= L <= 31 -> 0 <= v < 2 ^ 31 ->
  sign_adjust sign L v =
  if (sign =? 1) && Z.testbit v (L - 1) then - (v - 2 ^ (L - 1)) else v.
Proof.
  intros HL Hv. unfold sign_adjust.
  destruct (sign =? 1); [|reflexivity]. cbn [andb].
  assert (P : 0 < 2 ^ (L - 1) <= 2 ^ 30).
  { split; [apply Z.pow_pos_nonneg; lia | apply Z.pow_le_mono_r; lia]. }
  assert (E : shl_int 1 (L - 1) = 2 ^ (L - 1)).
  { unfold shl_int. assert (G : (L - 1 <? 32) = true) by (apply Z.ltb_lt; lia).
    rewrite G, Z.shiftl_mul_pow2, Z.mul_1_l by lia. apply i32_small.
    change (- 2 ^ 31 <= 2 ^ (L - 1) < 2 ^ 31). change (2 ^ 31) with 2147483648.
    change (2 ^ 30) with 1073741824 in P. lia. }
  rewrite E, land_pow2 by lia.
  destruct (Z.testbit v (L - 1)).
  - assert (N : (2 ^ (L - 1) =? 0) = false) by (apply Z.eqb_neq; lia).
    rewrite N. cbn [negb].
    change (2 ^ 31) with 2147483648 in Hv. change (2 ^ 30) with 1073741824 in P.
    rewrite (i64_small (v - 2 ^ (L - 1))); [apply i64_small|];
      change (2 ^ 63) with 9223372036854775808; lia.
  - reflexivity.
Qed.

Lemma sign_adjust_unsigned L v : sign_adjust 0 L v = v.
Proof. reflexivity. Qed.

(** *** The descriptor checks of the decoder imply [valid_field] *)

Lemma accepted_descriptor_valid m :
  descriptor_out_of_range m = false -> descriptor_misfit m = false ->
  valid_field (Z.of_N (endian m)) (Z.of_N (startbit m)) (Z.of_N (length m)).
Proof.
  unfold descriptor_out_of_range, descriptor_misfit. intros R F.
  repeat (apply orb_false_iff in R; destruct R as [R ?]).
  apply N.leb_gt in R.
  repeat match goal with
         | H : (_ <=? _)%N = false |- _ => apply N.leb_gt in H
         | H : (_ <? _)%N = false |- _ => apply N.ltb_ge in H
         | H : (_ =? _)%N = false |- _ => apply N.eqb_neq in H
         end.
  unfold valid_field.
  destruct (endian m =? 0)%N eqn:E;
    [apply N.eqb_eq in E | apply N.eqb_neq in E]; apply N.ltb_ge in F.
  - repeat split; try lia.
  - assert (E1 : endian m = 1%N) by lia.
    repeat split; try lia. intros _.
    change 8 with (Z.of_N 8).
    rewrite <- N2Z.inj_div, <- N2Z.inj_mod.
    pose proof (N.mod_upper_bound (startbit m) 8 ltac:(discriminate)). lia.
Qed.

(** *** Where the loop departs from the field *)

(** C3 (code defect): a 2-bit little-endian field at bit 2 is a valid
    descriptor; with the value 3 stored in it and the neighbouring bits of
    the byte set, the loop returns 15: the mask [0xff >> lastbitofbyte] is
    applied after the shift by [index_bitofbyte], so it is too wide by
    [index_bitofbyte] bits. *)
Theorem C3_neighbour_bits_leak :
  let data := encode_field [255; 0; 0; 0; 0; 0; 0; 0] 0 2 2 3 in
  valid_field 0 2 2 /\ wf_payload data /\
  encoded_field data 0 2 2 = 3 /\
  extract_field data 0 2 2 = 15.
Proof.
  intros data. split; [|split; [|split]].
  - unfold valid_field. repeat split; lia.
  - apply payload_of_number_wf.
  - reflexivity.
  - reflexivity.
Qed.

(** The second departure: chunks are shifted as 32-bit [int]s, so a field
    of 32 bits or more loses or sign-extends its upper part even in an
    otherwise empty payload. *)
Example wide_field_round_trip_fails :
  extract_field (encode_field [0; 0; 0; 0; 0; 0; 0; 0] 0 0 32 (2 ^ 31)) 0 0 32
    = - 2 ^ 31 /\
  extract_field (encode_field [0; 0; 0; 0; 0; 0; 0; 0] 0 0 40 (2 ^ 39)) 0 0 40
    = 0.
Proof. split; reflexivity. Qed.

(** C4 (code defect): a signed 40-bit field whose top bit is set, both in
    the payload and in what the loop returns.  [1 << (bitlent - 1)] is a
    32-bit [int] shift, here by 39, so the top-bit test sees 0 and the
    value goes on to scaling unchanged instead of as
    [-(value - 2^39)]. *)
Theorem C4_wide_signed_field_unadjusted :
  let data := [0; 0; 0; 128; 192; 0; 0; 0] in
  let raw := extract_field data 0 0 40 in
  valid_field 0 0 40 /\ wf_payload data /\
  Z.testbit (encoded_field data 0 0 40) 39 = true /\
  Z.testbit raw 39 = true /\
  sign_adjust 1 40 raw = - 2 ^ 31 /\
  - (raw - 2 ^ 39) = 2 ^ 39 + 2 ^ 31 /\
  - (encoded_field data 0 0 40 - 2 ^ 39) = - (2 ^ 38 + 2 ^ 31).
Proof.
  intros data raw. split; [|split].
  - unfold valid_field. repeat split; lia.
  - split; [reflexivity|]. subst data.
    repeat (constructor; [lia|]). constructor.
  - repeat split; reflexivity.
Qed.

(** The same frame through the whole decoder, as a dimensionless signed
    rearRight speed with scale 1 and offset 0: what is stored is
    [-2^31], not [-(2^38 + 2^31)]. *)
Example wide_signed_frame_decoded :
  let m := mkOdoMesg 85 256 0 40 0 1 2 0 1 0 in
  let env := mkCanEnv (mkTimeBase 1270080100 250) 2100 scenario_time2gpst
                      (mkOdoConfig m scenario_rl scenario_gear 1 2 3 4) in
  speed_RR (car_can_data_process env 256 [0; 0; 0; 128; 192; 0; 0; 0]
              car_can_initialize)
  = (-2147483648)%float.
Proof. vm_compute. reflexivity. Qed.

End ExtractFacts.

Module PpsFacts.
Import CInt CIntFacts Pps.

Lemma released_iff env g :
  PPSstate env = 0 ->
  (released (ST_PPS_IRQ env g) = true <->
   msec (g_MCU_time g) < 500 /\ BAREMETAL_OS env = false /\ dataAcqSem env <> 0).
Proof.
  intros Hp. unfold ST_PPS_IRQ, released. rewrite Hp. cbn [Z.eqb snd].
  unfold maybe_release.
  destruct (msec (g_MCU_time g) <? 500) eqn:M;
    [apply Z.ltb_lt in M | apply Z.ltb_ge in M].
  - destruct (BAREMETAL_OS env).
    + cbn. split; [discriminate | intros [_ [F _]]; discriminate].
    + destruct (dataAcqSem env =? 0) eqn:S;
        [apply Z.eqb_eq in S | apply Z.eqb_neq in S]; cbn.
      * split; [discriminate | intros [_ [_ F]]; contradiction].
      * split; [intros _; now repeat split | reflexivity].
  - cbn. split; [discriminate | intros [F _]; lia].
Qed.

(** C7 (as stated, refuted): with the millisecond counter below 500 but no
    semaphore created ([dataAcqSem] is 0) the falling edge releases
    nothing. *)
Lemma C7_null_semaphore_not_released :
  ~ (forall env g,
       PPSstate env = 0 ->
       (released (ST_PPS_IRQ env g) = true <-> msec (g_MCU_time g) < 500)).
Proof.
  intros H.
  specialize (H (mkPpsEnv false 0 0 1 1000)
                (mkPpsGlobals (mkTimeBase 999 100) (mkTimeBase 999 40) 0 7 7)
                eq_refl).
  destruct H as [_ H]. cbn in H.
  assert (F : false = true) by (apply H; lia). discriminate.
Qed.

(** C7 (amended): on a falling edge the handler releases the
    data-acquisition semaphore exactly when the millisecond counter read
    before the reset is below 500, the build is not bare-metal and the
    semaphore handle is not null; in every case the microsecond counter
    becomes 0 and the millisecond counter the anchor 500. *)
Theorem C7_falling_edge env g :
  PPSstate env = 0 ->
  let r := ST_PPS_IRQ env g in
  (released r = true <->
   msec (g_MCU_time g) < 500 /\ BAREMETAL_OS env = false /\ dataAcqSem env <> 0) /\
  usCnt (fst r) = 0 /\ msec (g_MCU_time (fst r)) = 500.
Proof.
  intros Hp r. split; [now apply released_iff|].
  subst r. unfold ST_PPS_IRQ. rewrite Hp. cbn. split; reflexivity.
Qed.

Lemma C7_falling_edge_witness :
  let env := mkPpsEnv false 77 0 1 1000 in
  let g := mkPpsGlobals (mkTimeBase 999 100) (mkTimeBase 999 40) 0 7 7 in
  released (ST_PPS_IRQ env g) = true /\
  usCnt (fst (ST_PPS_IRQ env g)) = 0 /\
  msec (g_MCU_time (fst (ST_PPS_IRQ env g))) = 500.
Proof.
  intros env g.
  destruct (C7_falling_edge env g eq_refl) as [[_ H] [H1 H2]].
  split; [|split; [exact H1 | exact H2]].
  apply H. cbn. split; [lia | split; [reflexivity | discriminate]].
Defined.

Lemma latch_guard_iff env g :
  latch_guard env g = true <->
  get_gnss_signal_flag env <> 0 /\ 0 <= elapsed_since_latch g /\
  time (g_MCU_time g) = time (g_obs_rcv_time g).
Proof.
  unfold latch_guard.
  rewrite !andb_true_iff, negb_true_iff, Z.eqb_neq, Z.leb_le, Z.eqb_eq. tauto.
Qed.

(** C8: on a falling edge the absolute-time anchor becomes the freshly
    resolved value when the signal-valid flag is set, the elapsed time
    since the last latch is non-negative and the two latched absolute
    times are equal, and keeps its value when any of the three fails; the
    counters are reset either way. *)
Theorem C8_anchor_update env g :
  PPSstate env = 0 ->
  let g' := fst (ST_PPS_IRQ env g) in
  let guard := get_gnss_signal_flag env <> 0 /\ 0 <= elapsed_since_latch g /\
               time (g_MCU_time g) = time (g_obs_rcv_time g) in
  (guard -> time (g_MCU_time g') = get_obs_time env) /\
  (~ guard -> time (g_MCU_time g') = time (g_MCU_time g)) /\
  msec (g_MCU_time g') = 500 /\ usCnt g' = 0 /\ htim_sensor_CNT g' = 0.
Proof.
  intros Hp g' guard. subst g'. unfold ST_PPS_IRQ. rewrite Hp.
  cbn [Z.eqb fst]. unfold falling_edge. cbn [g_MCU_time time msec usCnt htim_sensor_CNT].
  pose proof (latch_guard_iff env g) as L. fold guard in L.
  destruct (latch_guard env g).
  - repeat split. intros N. exfalso. apply N. now apply L.
  - repeat split. intros G. apply L in G. discriminate.
Qed.

Lemma C8_anchor_update_witness :
  let env := mkPpsEnv false 77 0 1 1000 in
  let stale := mkPpsGlobals (mkTimeBase 999 100) (mkTimeBase 998 40) 0 7 7 in
  let fresh := mkPpsGlobals (mkTimeBase 999 100) (mkTimeBase 999 40) 0 7 7 in
  time (g_MCU_time (fst (ST_PPS_IRQ env fresh))) = 1000 /\
  time (g_MCU_time (fst (ST_PPS_IRQ env stale))) = 999 /\
  msec (g_MCU_time (fst (ST_PPS_IRQ env stale))) = 500 /\
  usCnt (fst (ST_PPS_IRQ env stale)) = 0.
Proof.
  intros env stale fresh.
  destruct (C8_anchor_update env fresh eq_refl) as [Hf _].
  destruct (C8_anchor_update env stale eq_refl) as [_ [Hs [Hm [Hu _]]]].
  split; [|split; [|split; [exact Hm | exact Hu]]].
  - apply Hf. cbn. split; [discriminate | split; [vm_compute; discriminate | reflexivity]].
  - apply Hs. cbn. intros [_ [_ F]]. discriminate.
Defined.

(** C9: on a rising edge (pin read high) the handler leaves the time
    base (millisecond counter and absolute-time anchor), the microsecond
    counter and the sensor-timer count as they were and releases no
    semaphore. *)
Theorem C9_rising_edge env g :
  PPSstate env <> 0 ->
  let r := ST_PPS_IRQ env g in
  g_MCU_time (fst r) = g_MCU_time g /\
  usCnt (fst r) = usCnt g /\
  htim_sensor_CNT (fst r) = htim_sensor_CNT g /\
  released r = false.
Proof.
  intros Hp r. subst r. unfold ST_PPS_IRQ.
  apply Z.eqb_neq in Hp. rewrite Hp. cbn. repeat split.
Qed.

Lemma C9_rising_edge_witness :
  let env := mkPpsEnv false 77 1 1 1000 in
  let g := mkPpsGlobals (mkTimeBase 999 100) (mkTimeBase 999 40) 0 7 7 in
  g_MCU_time (fst (ST_PPS_IRQ env g)) = mkTimeBase 999 100 /\
  usCnt (fst (ST_PPS_IRQ env g)) = 7 /\
  htim_sensor_CNT (fst (ST_PPS_IRQ env g)) = 7 /\
  released (ST_PPS_IRQ env g) = false.
Proof.
  intros env g. apply (C9_rising_edge env g). cbn. discriminate.
Defined.

End PpsFacts.

(** ** More of the decoder: filter, invariants, bounds *)

Module CarMoreFacts.
Import CInt CIntFacts CFloat Car CarMore CarFacts FieldSpec LoopInvariant ExtractFacts.

Lemma accepted_iff m stdId :
  accepted m stdId = true <->
  usage m = 85%N /\ Z.of_N (mesgID m) = stdId /\
  descriptor_out_of_range m = false /\ descriptor_misfit m = false.
Proof.
  unfold accepted.
  rewrite !andb_true_iff, !negb_true_iff, N.eqb_eq, Z.eqb_eq. tauto.
Qed.

Lemma process_mesg_not_accepted cfg wk ts stdId data m ws :
  accepted m stdId = false -> process_mesg cfg wk ts stdId data m ws = ws.
Proof.
  unfold accepted, process_mesg. intros H.
  destruct (usage m =? 85)%N; [|reflexivity].
  destruct (Z.of_N (mesgID m) =? stdId); [|reflexivity].
  destruct (descriptor_out_of_range m); [reflexivity|].
  destruct (descriptor_misfit m); [reflexivity|]. discriminate.
Qed.

Lemma accepted_admitted cfg m stdId :
  In m [odo_mesg0 cfg; odo_mesg1 cfg; odo_mesg2 cfg] ->
  accepted m stdId = true -> In stdId (admitted_ids cfg).
Proof.
  intros Hin Ha. apply accepted_iff in Ha. destruct Ha as (Hu & Hid & _).
  apply N.eqb_eq in Hu.
  unfold admitted_ids, can_config_filter_car. cbn [flat_map app].
  rewrite !flat_map_app. rewrite !in_app_iff.
  destruct Hin as [<- | [<- | [<- | []]]]; rewrite Hu; cbn; tauto.
Qed.

(** X1: a frame whose identifier is not among those
    [can_config_filter_car] hands to the transport layer leaves
    [wheel_speed] unchanged, whatever its payload and the time. *)
Theorem unadmitted_frame_ignored env stdId data ws :
  ~ In stdId (admitted_ids (gOdoConfigurationStruct env)) ->
  car_can_data_process env stdId data ws = ws.
Proof.
  intros Hn. unfold car_can_data_process.
  destruct (resolve_time env) as [ts wk].
  destruct ((gps_start_week env =? -1) || (ts <? 0)%float); [reflexivity|].
  set (cfg := gOdoConfigurationStruct env) in *.
  assert (R : forall m, In m [odo_mesg0 cfg; odo_mesg1 cfg; odo_mesg2 cfg] ->
                        accepted m stdId = false).
  { intros m Hin. destruct (accepted m stdId) eqn:A; [|reflexivity].
    exfalso. apply Hn. now apply (accepted_admitted cfg m). }
  cbv zeta.
  rewrite !process_mesg_not_accepted; try reflexivity; apply R; cbn; tauto.
Qed.

Lemma unadmitted_frame_ignored_witness :
  admitted_ids scenario_cfg = [256; 256; 288] /\
  car_can_data_process (scenario_env 2100) 512 scenario_payload car_can_initialize
  = car_can_initialize.
Proof.
  split; [reflexivity|]. apply unadmitted_frame_ignored.
  cbn. intros [H | [H | [H | []]]]; discriminate H.
Defined.

Lemma shl_int_one k : 0 <= k < 3 -> shl_int 1 k = 2 ^ k.
Proof.
  intros Hk. assert (C : k = 0 \/ k = 1 \/ k = 2) by lia.
  destruct C as [-> | [-> | ->]]; reflexivity.
Qed.

Lemma mask_bit_after u src k :
  0 <= src < 3 -> 0 <= k < 8 ->
  Z.testbit (u8 (Z.lor u (shl_int 1 src))) k = Z.testbit u k || (k =? src).
Proof.
  intros Hs Hk. unfold u8, wrap_u.
  rewrite Z.mod_pow2_bits_low by lia. rewrite Z.lor_spec, shl_int_one by lia.
  f_equal. destruct (Z.eqb_spec k src) as [-> | D].
  - apply Z.pow2_bits_true. lia.
  - apply Z.pow2_bits_false. lia.
Qed.

Lemma accepted_source m stdId :
  accepted m stdId = true -> (source m <= 3)%N.
Proof.
  intros H. apply accepted_iff in H. destruct H as (_ & _ & R & _).
  unfold descriptor_out_of_range in R.
  repeat (apply orb_false_iff in R; destruct R as [R ?]).
  now apply N.ltb_ge.
Qed.

Lemma process_mesg_accepted cfg wk ts stdId data m ws :
  accepted m stdId = true ->
  exists sv,
    process_mesg cfg wk ts stdId data m ws =
    if (source m =? 3)%N then route_gear cfg sv ws
    else route_speed (Z.of_N (unit m)) (Z.of_N (source m)) sv wk ts ws.
Proof.
  intros H. apply accepted_iff in H. destruct H as (Hu & Hid & R & F).
  unfold process_mesg. apply N.eqb_eq in Hu. apply Z.eqb_eq in Hid.
  rewrite Hu, Hid, R, F. cbn [negb]. eexists. reflexivity.
Qed.

Lemma process_mesg_keeps_bits cfg wk ts stdId data m ws k :
  0 <= k < 8 -> Z.testbit (update ws) k = true ->
  Z.testbit (update (process_mesg cfg wk ts stdId data m ws)) k = true.
Proof.
  intros Hk Hb.
  destruct (process_mesg_cases cfg wk ts stdId data m ws)
    as [E | [[sv [_ E]] | [sv [Hlt E]]]]; rewrite E.
  - exact Hb.
  - destruct (route_gear_frame cfg sv ws) as [_ [_ [_ [U _]]]]. now rewrite U.
  - unfold route_speed. cbn [update]. rewrite mask_bit_after by lia.
    now rewrite Hb.
Qed.

(** X3: a frame never clears a bit of the update mask (only a readout
    does). *)
Theorem frame_keeps_report_bits env stdId data ws k :
  0 <= k < 8 -> Z.testbit (update ws) k = true ->
  Z.testbit (update (car_can_data_process env stdId data ws)) k = true.
Proof.
  intros Hk Hb. unfold car_can_data_process.
  destruct (resolve_time env) as [ts wk].
  destruct ((gps_start_week env =? -1) || (ts <? 0)%float); [exact Hb|].
  cbv zeta. now repeat apply process_mesg_keeps_bits.
Qed.

Lemma frame_keeps_report_bits_witness :
  let ws := mkWheelSpeed 1 2 3 1 4 2100 7 in
  Z.testbit (update (car_can_data_process (scenario_env 2100) 256
                       scenario_payload ws)) 2 = true.
Proof.
  intros ws. apply frame_keeps_report_bits; [lia | reflexivity].
Defined.

Lemma process_mesg_fwd cfg wk ts stdId data m ws :
  fwd ws = 0 \/ fwd ws = 1 ->
  fwd (process_mesg cfg wk ts stdId data m ws) = 0 \/
  fwd (process_mesg cfg wk ts stdId data m ws) = 1.
Proof.
  intros H.
  destruct (process_mesg_cases cfg wk ts stdId data m ws)
    as [E | [[sv [_ E]] | [sv [_ E]]]]; rewrite E.
  - exact H.
  - unfold route_gear.
    destruct (sv =? gears0 cfg)%float; [cbn; tauto|].
    destruct (sv =? gears1 cfg)%float; [cbn; tauto|].
    destruct (sv =? gears2 cfg)%float; [cbn; tauto|].
    destruct (sv =? gears3 cfg)%float; [cbn; tauto|exact H].
  - exact H.
Qed.

Lemma process_mesg_week cfg wk ts stdId data m ws :
  0 <= week ws < 2 ^ 32 ->
  0 <= week (process_mesg cfg wk ts stdId data m ws) < 2 ^ 32.
Proof.
  intros H.
  destruct (process_mesg_cases cfg wk ts stdId data m ws)
    as [E | [[sv [_ E]] | [sv [_ E]]]]; rewrite E.
  - exact H.
  - destruct (route_gear_frame cfg sv ws) as [_ [_ [_ [_ [W _]]]]]. now rewrite W.
  - unfold route_speed. cbn [week]. apply wrap_u_range. lia.
Qed.

(** X2: in every state that initialisation, frames and readouts can
    produce, the update mask holds only the three report bits, the forward
    flag is 0 or 1, and the week fits 32 bits. *)
Theorem reachable_invariants ws :
  reachable ws ->
  0 <= update ws < 8 /\ (fwd ws = 0 \/ fwd ws = 1) /\ 0 <= week ws < 2 ^ 32.
Proof.
  intros H. split; [now apply reachable_mask|].
  induction H as [| env stdId data ws _ IH | ws out _ IH].
  - cbn. split; [now right | lia].
  - unfold car_can_data_process.
    destruct (resolve_time env) as [ts wk].
    destruct ((gps_start_week env =? -1) || (ts <? 0)%float); [exact IH|].
    cbv zeta. destruct IH as [F W]. split.
    + now repeat apply process_mesg_fwd.
    + now repeat apply process_mesg_week.
  - unfold car_get_wheel_speed, state_after.
    destruct (3 <=? update ws); cbn; exact IH.
Qed.

Lemma reachable_invariants_witness :
  let ws := car_can_data_process (scenario_env 2100) 288 [0; 0; 2; 0; 0; 0; 0; 0]
              (car_can_data_process (scenario_env 2100) 256 scenario_payload
                 car_can_initialize) in
  fwd ws = 0 /\ update ws = 3 /\
  (0 <= update ws < 8 /\ (fwd ws = 0 \/ fwd ws = 1) /\ 0 <= week ws < 2 ^ 32).
Proof.
  intros ws. split; [reflexivity|]. split; [reflexivity|].
  apply reachable_invariants. do 2 apply reach_frame. apply reach_init.
Defined.

Lemma speed_bit_set cfg wk ts stdId data m ws :
  accepted m stdId = true -> source m <> 3%N ->
  Z.testbit (update (process_mesg cfg wk ts stdId data m ws)) (Z.of_N (source m))
  = true /\
  (week (process_mesg cfg wk ts stdId data m ws) = u32 wk /\
   timestamp (process_mesg cfg wk ts stdId data m ws) = ts).
Proof.
  intros Ha Hs.
  pose proof (accepted_source m stdId Ha) as Hle.
  destruct (process_mesg_accepted cfg wk ts stdId data m ws Ha) as [sv E].
  rewrite E. apply N.eqb_neq in Hs. rewrite Hs. apply N.eqb_neq in Hs.
  unfold route_speed. cbn [update week timestamp].
  split; [|now split].
  rewrite mask_bit_after by lia. rewrite Z.eqb_refl. apply orb_true_r.
Qed.

(** X4: an accepted descriptor with a speed role sets that role's bit in
    the update mask, stamps the state with the frame's week (reduced to 32
    bits) and time stamp, and leaves the forward flag and the other two
    speeds alone. *)
Theorem speed_descriptor_effect cfg wk ts stdId data m ws :
  accepted m stdId = true -> source m <> 3%N ->
  let ws' := process_mesg cfg wk ts stdId data m ws in
  Z.testbit (update ws') (Z.of_N (source m)) = true /\
  week ws' = u32 wk /\ timestamp ws' = ts /\ fwd ws' = fwd ws /\
  (source m <> 0%N -> speed_RR ws' = speed_RR ws) /\
  (source m <> 1%N -> speed_RL ws' = speed_RL ws) /\
  (source m <> 2%N -> speed_combined ws' = speed_combined ws).
Proof.
  intros Ha Hs ws'. subst ws'.
  pose proof (accepted_source m stdId Ha) as Hle.
  destruct (process_mesg_accepted cfg wk ts stdId data m ws Ha) as [sv E].
  rewrite E. apply N.eqb_neq in Hs. rewrite Hs.
  apply N.eqb_neq in Hs.
  unfold route_speed. cbn [update week timestamp fwd speed_RR speed_RL speed_combined].
  split; [|split; [reflexivity|split; [reflexivity|split; [reflexivity|]]]].
  - rewrite mask_bit_after by lia. rewrite Z.eqb_refl. apply orb_true_r.
  - repeat split; intros D.
    + destruct (Z.eqb_spec (Z.of_N (source m)) 0); [lia | reflexivity].
    + destruct (Z.eqb_spec (Z.of_N (source m)) 1); [lia | reflexivity].
    + destruct (Z.eqb_spec (Z.of_N (source m)) 2); [lia | reflexivity].
Qed.

Lemma speed_descriptor_effect_witness :
  let ws := mkWheelSpeed 1 2 3 0 4 7 9 in
  let ws' := process_mesg scenario_cfg 2100 100.25 256 scenario_payload
               scenario_rl ws in
  update ws' = 6 /\ week ws' = 2100 /\ timestamp ws' = 100.25%float /\
  fwd ws' = 0 /\ speed_RR ws' = 1%float /\ speed_combined ws' = 3%float.
Proof.
  intros ws ws'.
  destruct (speed_descriptor_effect scenario_cfg 2100 100.25 256 scenario_payload
              scenario_rl ws) as (_ & Hw & Ht & Hf & Hrr & _ & Hc).
  - reflexivity.
  - discriminate.
  - split; [reflexivity|]. split; [exact Hw|]. split; [exact Ht|].
    split; [exact Hf|]. split; [apply Hrr | apply Hc]; discriminate.
Defined.

Lemma frame_establishes (Q : WHEEL_SPEED_STRUCT -> Prop)
  (step : odo_mesg_t -> WHEEL_SPEED_STRUCT -> WHEEL_SPEED_STRUCT)
  m m0 m1 m2 ws :
  In m [m0; m1; m2] ->
  (forall m' w, Q w -> Q (step m' w)) ->
  (forall w, Q (step m w)) ->
  Q (step m2 (step m1 (step m0 ws))).
Proof.
  intros Hin Keep Set_.
  destruct Hin as [<- | [<- | [<- | []]]].
  - apply Keep, Keep, Set_.
  - apply Keep, Set_.
  - apply Set_.
Qed.

Lemma process_mesg_stamp_kept cfg wk ts stdId data m ws :
  week ws = u32 wk /\ timestamp ws = ts ->
  week (process_mesg cfg wk ts stdId data m ws) = u32 wk /\
  timestamp (process_mesg cfg wk ts stdId data m ws) = ts.
Proof.
  intros H.
  destruct (process_mesg_cases cfg wk ts stdId data m ws)
    as [E | [[sv [_ E]] | [sv [_ E]]]]; rewrite E.
  - exact H.
  - destruct (route_gear_frame cfg sv ws) as [_ [_ [_ [_ [W T]]]]].
    now rewrite W, T.
  - unfold route_speed. cbn [week timestamp]. now split.
Qed.

(** X5: when the time is valid and a frame is accepted by a rearRight
    and by a rearLeft descriptor, the next readout returns a sample: the
    mean of the two stored rear speeds, stamped with that frame's week and
    time stamp. *)
Theorem rear_pair_frame_then_readout env stdId data ws out mR mL :
  reachable ws ->
  gps_start_week env <> -1 ->
  (fst (resolve_time env) <? 0)%float = false ->
  let cfg := gOdoConfigurationStruct env in
  In mR [odo_mesg0 cfg; odo_mesg1 cfg; odo_mesg2 cfg] ->
  In mL [odo_mesg0 cfg; odo_mesg1 cfg; odo_mesg2 cfg] ->
  accepted mR stdId = true -> source mR = 0%N ->
  accepted mL stdId = true -> source mL = 1%N ->
  let ws' := car_can_data_process env stdId data ws in
  let r := car_get_wheel_speed ws' out in
  ret r = 1 /\
  car_speed (outputs r) = ((speed_RR ws' + speed_RL ws') / 2)%float /\
  s_fwd (outputs r) = fwd ws' /\
  s_week (outputs r) = u32 (snd (resolve_time env)) /\
  s_timestamp (outputs r) = fst (resolve_time env).
Proof.
  intros Hr Hw Ht cfg HinR HinL HaR HsR HaL HsL ws' r.
  assert (Hr' : reachable ws') by (now apply reach_frame).
  apply reachable_mask in Hr'.
  subst r ws'. unfold car_can_data_process in *.
  destruct (resolve_time env) as [ts wk]. cbn [fst snd] in *.
  apply Z.eqb_neq in Hw. rewrite Hw, Ht in *. cbn [orb] in *. cbv zeta in *.
  fold cfg in Hr' |- *.
  set (step := process_mesg cfg wk ts stdId data) in *.
  set (ws' := step (odo_mesg2 cfg) (step (odo_mesg1 cfg) (step (odo_mesg0 cfg) ws))) in *.
  assert (B0 : Z.testbit (update ws') 0 = true).
  { apply (frame_establishes (fun w => Z.testbit (update w) 0 = true) step mR);
      [exact HinR | | ].
    - intros m' w. apply process_mesg_keeps_bits. lia.
    - intros w.
      destruct (speed_bit_set cfg wk ts stdId data mR w HaR) as [H _];
        [rewrite HsR; discriminate|]. now rewrite HsR in H. }
  assert (B1 : Z.testbit (update ws') 1 = true).
  { apply (frame_establishes (fun w => Z.testbit (update w) 1 = true) step mL);
      [exact HinL | | ].
    - intros m' w. apply process_mesg_keeps_bits. lia.
    - intros w.
      destruct (speed_bit_set cfg wk ts stdId data mL w HaL) as [H _];
        [rewrite HsL; discriminate|]. now rewrite HsL in H. }
  assert (St : week ws' = u32 wk /\ timestamp ws' = ts).
  { apply (frame_establishes (fun w => week w = u32 wk /\ timestamp w = ts) step mR);
      [exact HinR | | ].
    - intros m' w. apply process_mesg_stamp_kept.
    - intros w.
      destruct (speed_bit_set cfg wk ts stdId data mR w HaR) as [_ H];
        [rewrite HsR; discriminate|]. exact H. }
  assert (L3 : Z.land (update ws') 3 = 3) by (apply land_3_bits; now split).
  assert (G : 3 <= update ws').
  { assert (C : update ws' = 0 \/ update ws' = 1 \/ update ws' = 2 \/ 3 <= update ws') by lia.
    destruct C as [C | [C | [C | C]]]; [| | | exact C];
      rewrite C in L3; discriminate L3. }
  unfold car_get_wheel_speed. apply Z.leb_le in G. rewrite G.
  apply Z.eqb_eq in L3. rewrite L3.
  cbn [ret outputs fst snd car_speed s_fwd s_week s_timestamp].
  destruct St as [W T].
  split; [reflexivity|]. split; [apply FloatFacts.half_is_quotient_by_two|].
  split; [reflexivity|]. now split.
Qed.

Lemma rear_pair_frame_then_readout_witness :
  let ws' := car_can_data_process (scenario_env 2100) 256 scenario_payload
               car_can_initialize in
  let r := car_get_wheel_speed ws' (mkSample 0 0 0 0) in
  ret r = 1 /\
  car_speed (outputs r) = ((speed_RR ws' + speed_RL ws') / 2)%float /\
  s_week (outputs r) = 2100.
Proof.
  intros ws' r.
  destruct (rear_pair_frame_then_readout (scenario_env 2100) 256 scenario_payload
              car_can_initialize (mkSample 0 0 0 0) scenario_rr scenario_rl)
    as (H1 & H2 & _ & H4 & _).
  - apply reach_init.
  - cbn. discriminate.
  - reflexivity.
  - cbn. tauto.
  - cbn. tauto.
  - reflexivity.
  - reflexivity.
  - reflexivity.
  - reflexivity.
  - split; [exact H1|]. split; [exact H2 | exact H4].
Defined.

Section Reads.
Variables (data : list Z) (endian pos L : Z).
Hypothesis Hendian : endian = 0 \/ endian = 1.
Hypothesis Hfit : pos + L <= 64.

Lemma extract_step_reads_inv s :
  reads_inv endian pos L s -> 0 < bitlen s ->
  reads_inv endian pos L (extract_step data endian L s) /\
  (0 < bitlen (extract_step data endian L s) ->
   byte_weight endian (index_byte (extract_step data endian L s))
   = byte_weight endian (index_byte s) + 8).
Proof.
  destruct s as [v i o n]. unfold reads_inv.
  cbn [value index_byte index_bitofbyte bitlen].
  intros (Hn & Ho & Hrest) Hpos. destruct (Hrest Hpos) as (Hi & Hw). clear Hrest.
  unfold extract_step. cbn [value index_byte index_bitofbyte bitlen].
  destruct (8 <=? o + n) eqn:E; [apply Z.leb_le in E | apply Z.leb_gt in E].
  - rewrite (u8_small 0) by lia. rewrite (u8_small (n - (8 - o - 0))) by lia.
    assert (G : 0 < n - (8 - o - 0) ->
                (if endian =? 0 then u8 (i + 1) else u8 (i - 1))
                = (if endian =? 0 then i + 1 else i - 1) /\
                0 <= (if endian =? 0 then i + 1 else i - 1) < 8).
    { intros G. unfold byte_weight in Hw.
      destruct Hendian as [-> | ->]; cbn [Z.eqb] in *; rewrite u8_small by lia; lia. }
    split; [split; [lia | split; [lia|]]|].
    + intros G'. destruct (G G') as [-> R]. split; [exact R|].
      unfold byte_weight in *. destruct Hendian as [-> | ->]; cbn [Z.eqb] in *; lia.
    + intros G'. destruct (G G') as [-> R].
      unfold byte_weight. destruct Hendian as [-> | ->]; cbn [Z.eqb]; lia.
  - rewrite (u8_small (8 - (o + n))) by lia.
    replace (n - (8 - o - (8 - (o + n)))) with 0 by lia.
    rewrite (u8_small 0) by lia.
    split; [split; [lia | split; [lia|]]|]; intros G; lia.
Qed.

Lemma extract_reads_bounded fuel :
  forall s, reads_inv endian pos L s ->
  Forall (fun i => 0 <= i < 8) (extract_reads fuel data endian L s) /\
  (0 < bitlen s ->
   8 * Z.of_nat (List.length (extract_reads fuel data endian L s))
   <= 64 - byte_weight endian (index_byte s)).
Proof.
  induction fuel as [|fuel IH]; intros s HI; cbn [extract_reads].
  - split; [constructor|]. intros G. cbn [List.length].
    destruct HI as (_ & _ & H). destruct (H G) as [Hi _].
    unfold byte_weight. destruct Hendian as [-> | ->]; cbn [Z.eqb]; lia.
  - destruct (0 <? bitlen s) eqn:G; [apply Z.ltb_lt in G | apply Z.ltb_ge in G].
    + destruct (extract_step_reads_inv s HI G) as [HI' Hw].
      destruct (IH _ HI') as [F Len].
      pose proof HI as (_ & _ & H). destruct (H G) as [Hi _].
      split; [constructor; assumption|]. intros _.
      cbn [List.length]. rewrite Nat2Z.inj_succ.
      destruct (Z.lt_ge_cases 0 (bitlen (extract_step data endian L s))) as [P | P].
      * specialize (Len P). rewrite (Hw P) in Len. lia.
      * destruct fuel; cbn [extract_reads List.length] in *.
        -- unfold byte_weight. destruct Hendian as [-> | ->]; cbn [Z.eqb]; lia.
        -- apply Z.ltb_ge in P. rewrite P. cbn [List.length].
           unfold byte_weight. destruct Hendian as [-> | ->]; cbn [Z.eqb]; lia.
    + split; [constructor|]. lia.
Qed.
End Reads.

Theorem field_reads_in_bounds data endian startbit L :
  valid_field endian startbit L ->
  Forall (fun i => 0 <= i < 8) (field_reads data endian startbit L) /\
  (List.length (field_reads data endian startbit L) <= 8)%nat.
Proof.
  intros Hv. destruct (field_lsb_fit endian startbit L Hv) as [Hp Hf].
  destruct Hv as (He & Hs & HL & Hle & Hbe).
  assert (Hb : 0 <= startbit / 8 < 8)
    by (split; [apply Z.div_pos | apply Z.div_lt_upper_bound]; lia).
  assert (Ho : 0 <= startbit mod 8 < 8) by (apply Z.mod_pos_bound; lia).
  unfold field_reads. rewrite !u8_small by lia.
  destruct (extract_reads_bounded data endian (field_lsb endian startbit) L He Hf
              (Z.to_nat L)
              (mkExtract 0 (startbit / 8) (startbit mod 8) L))
    as [F Len].
  - unfold reads_inv. cbn [value index_byte index_bitofbyte bitlen].
    split; [lia|]. split; [exact Ho|].
    intros _. split; [exact Hb|].
    unfold byte_weight, field_lsb. destruct He as [-> | ->]; cbn [Z.eqb].
    + pose proof (Z.div_mod startbit 8). lia.
    + lia.
  - split; [exact F|].
    cbn [bitlen index_byte] in Len. specialize (Len ltac:(lia)).
    assert (0 <= byte_weight endian (startbit / 8)).
    { unfold byte_weight. destruct He as [-> | ->]; cbn [Z.eqb]; lia. }
    lia.
Qed.

(** X6: for every descriptor that passes the decoder's checks (any
    width up to 64, any alignment, either byte order) the extraction loop
    reads [data] only at subscripts 0..7, makes at most 8 reads, and has
    left the loop by its own test. *)
Theorem accepted_descriptor_reads_in_bounds m data :
  descriptor_out_of_range m = false -> descriptor_misfit m = false ->
  let reads := field_reads data (Z.of_N (endian m)) (Z.of_N (startbit m))
                           (Z.of_N (length m)) in
  Forall (fun i => 0 <= i < 8) reads /\ (List.length reads <= 8)%nat /\
  bitlen (extract_loop (Z.to_nat (Z.of_N (length m))) data (Z.of_N (endian m))
            (Z.of_N (length m))
            (mkExtract 0 (u8 (Z.of_N (startbit m) / 8))
                       (u8 (Z.of_N (startbit m) mod 8)) (Z.of_N (length m)))) = 0.
Proof.
  intros R F reads.
  pose proof (accepted_descriptor_valid m R F) as Hv.
  destruct (field_reads_in_bounds data _ _ _ Hv) as [B Len].
  split; [exact B|]. split; [exact Len|].
  destruct Hv as (_ & Hs & HL & _).
  apply extract_loop_exits; lia.
Qed.

Lemma accepted_descriptor_reads_in_bounds_witness :
  field_reads scenario_payload 0 3 61 = [0; 1; 2; 3; 4; 5; 6; 7] /\
  Forall (fun i => 0 <= i < 8) (field_reads scenario_payload 0 3 61).
Proof.
  split; [reflexivity|].
  apply (accepted_descriptor_reads_in_bounds (mkOdoMesg 85 256 3 61 0 0 2 0 1 0));
    reflexivity.
Defined.

Lemma testbit_top v L :
  1 <= L -> 0 <= v < 2 ^ L -> Z.testbit v (L - 1) = (2 ^ (L - 1) <=? v).
Proof.
  intros HL Hv.
  assert (E : 2 ^ L = 2 * 2 ^ (L - 1)).
  { replace L with (Z.succ (L - 1)) at 1 by lia. apply Z.pow_succ_r. lia. }
  assert (P : 0 < 2 ^ (L - 1)) by (apply Z.pow_pos_nonneg; lia).
  destruct (Z.leb_spec (2 ^ (L - 1)) v) as [G | G].
  - apply Z.testbit_true; [lia|].
    replace (v / 2 ^ (L - 1)) with 1; [reflexivity|].
    apply Z.div_unique with (r := v - 2 ^ (L - 1)); lia.
  - apply Z.testbit_false; [lia|].
    rewrite Z.div_small by lia. reflexivity.
Qed.

(** X9: on fields of at most 31 bits the sign step reads the field as
    sign and magnitude, not as two's complement: with the top bit set the
    result is minus the remaining bits.  The result lies strictly between
    [-2^(L-1)] and [2^(L-1)], and the top bit alone decodes to 0. *)
Theorem signed_field_is_sign_magnitude L v :
  1 <= L <= 31 -> 0 <= v < 2 ^ L ->
  sign_adjust 1 L v = (if 2 ^ (L - 1) <=? v then - (v - 2 ^ (L - 1)) else v) /\
  - 2 ^ (L - 1) < sign_adjust 1 L v < 2 ^ (L - 1) /\
  sign_adjust 1 L (2 ^ (L - 1)) = 0.
Proof.
  intros HL Hv.
  assert (E : 2 ^ L = 2 * 2 ^ (L - 1)).
  { replace L with (Z.succ (L - 1)) at 1 by lia. apply Z.pow_succ_r. lia. }
  assert (P : 0 < 2 ^ (L - 1)) by (apply Z.pow_pos_nonneg; lia).
  assert (U : 2 ^ L <= 2 ^ 31) by (apply Z.pow_le_mono_r; lia).
  assert (A : forall w, 0 <= w < 2 ^ L ->
            sign_adjust 1 L w = (if 2 ^ (L - 1) <=? w then - (w - 2 ^ (L - 1)) else w)).
  { intros w Hw. rewrite sign_adjust_narrow by lia. cbn [Z.eqb andb].
    now rewrite testbit_top by lia. }
  split; [now apply A|]. split.
  - rewrite A by lia. destruct (Z.leb_spec (2 ^ (L - 1)) v); lia.
  - rewrite A by lia. rewrite Z.leb_refl. lia.
Qed.

Lemma signed_field_is_sign_magnitude_witness :
  sign_adjust 1 16 65535 = -32767 /\ sign_adjust 1 16 32768 = 0.
Proof.
  destruct (signed_field_is_sign_magnitude 16 65535) as (H & _ & Z0);
    [lia | change (2 ^ 16) with 65536; lia |].
  split; [exact H | exact Z0].
Defined.

Lemma encoded_field_range data endian startbit L :
  0 <= L -> 0 <= encoded_field data endian startbit L < 2 ^ L.
Proof.
  intros HL. unfold encoded_field. rewrite Z.land_ones by lia.
  apply Z.mod_pos_bound. apply Z.pow_pos_nonneg; lia.
Qed.

(** X7: for a descriptor that passes the checks, is at most 31 bits wide
    and starts at bit 0 of a byte or reaches the top of its first byte, the
    loop returns exactly the integer stored in the field, which is below
    [2^length]. *)
Theorem accepted_narrow_field_decoded m data :
  wf_payload data ->
  descriptor_out_of_range m = false -> descriptor_misfit m = false ->
  (length m <= 31)%N ->
  (startbit m mod 8 = 0 \/ 8 <= startbit m mod 8 + length m)%N ->
  let v := extract_field data (Z.of_N (endian m)) (Z.of_N (startbit m))
                         (Z.of_N (length m)) in
  v = encoded_field data (Z.of_N (endian m)) (Z.of_N (startbit m))
                    (Z.of_N (length m)) /\
  0 <= v < 2 ^ Z.of_N (length m).
Proof.
  intros Hd R F HL Hal v. subst v.
  pose proof (accepted_descriptor_valid m R F) as Hv.
  rewrite extract_field_correct; try assumption; try lia.
  - split; [reflexivity|]. apply encoded_field_range. lia.
  - change 8 with (Z.of_N 8). rewrite <- N2Z.inj_mod. lia.
Qed.

Lemma accepted_narrow_field_decoded_witness :
  extract_field scenario_payload 0 16 16 = 6831.
Proof.
  destruct (accepted_narrow_field_decoded scenario_rl scenario_payload) as [H _].
  - split; [reflexivity|]. repeat (constructor; [lia|]). constructor.
  - reflexivity.
  - reflexivity.
  - cbn. lia.
  - left. reflexivity.
  - exact H.
Defined.

(** X8: for the same descriptors, storing an integer in the field of any
    payload and extracting it gives the integer back. *)
Theorem accepted_narrow_round_trip m data v :
  descriptor_out_of_range m = false -> descriptor_misfit m = false ->
  (length m <= 31)%N ->
  (startbit m mod 8 = 0 \/ 8 <= startbit m mod 8 + length m)%N ->
  0 <= v < 2 ^ Z.of_N (length m) ->
  extract_field
    (encode_field data (Z.of_N (endian m)) (Z.of_N (startbit m))
                  (Z.of_N (length m)) v)
    (Z.of_N (endian m)) (Z.of_N (startbit m)) (Z.of_N (length m)) = v.
Proof.
  intros R F HL Hal Hv.
  apply round_trip_narrow; try assumption; try lia.
  - now apply accepted_descriptor_valid.
  - change 8 with (Z.of_N 8). rewrite <- N2Z.inj_mod. lia.
Qed.

Lemma accepted_narrow_round_trip_witness :
  extract_field (encode_field [255; 255; 255; 255; 255; 255; 255; 255] 1 60 12 2748)
                1 60 12 = 2748.
Proof.
  apply (accepted_narrow_round_trip (mkOdoMesg 85 256 60 12 1 0 2 0 1 0)).
  - reflexivity.
  - reflexivity.
  - cbn. lia.
  - right. cbn. lia.
  - cbn. lia.
Defined.

Lemma ones_shiftr k : 0 <= k <= 8 -> Z.shiftr 255 (8 - k) = Z.ones k.
Proof.
  intros H.
  assert (C : k = 0 \/ k = 1 \/ k = 2 \/ k = 3 \/ k = 4 \/ k = 5 \/ k = 6 \/ k = 7 \/ k = 8) by lia.
  repeat (destruct C as [-> | C]); try subst k; reflexivity.
Qed.

(** X11: for a field that starts and ends inside one byte without
    reaching its top bit, the loop returns [index_bitofbyte + length] bits
    of the byte from the start bit on: the low [length] bits are the field,
    the excess comes from the bits above it. *)
Theorem in_byte_field_decoded data endian startbit L :
  wf_payload data -> valid_field endian startbit L ->
  startbit mod 8 + L < 8 ->
  let o := startbit mod 8 in
  let v := extract_field data endian startbit L in
  v = (byte_at data (startbit / 8) / 2 ^ o) mod 2 ^ (o + L) /\
  v mod 2 ^ L = encoded_field data endian startbit L.
Proof.
  intros Hd Hv Hin o v.
  destruct (field_lsb_fit endian startbit L Hv) as [Hp Hf].
  destruct Hv as (He & Hs & HL & Hle & Hbe).
  assert (Hb : 0 <= startbit / 8 < 8)
    by (split; [apply Z.div_pos | apply Z.div_lt_upper_bound]; lia).
  assert (Ho : 0 <= o < 8) by (apply Z.mod_pos_bound; lia).
  assert (E : v = (byte_at data (startbit / 8) / 2 ^ o) mod 2 ^ (o + L)).
  { subst v. unfold extract_field.
    destruct (Z.to_nat L) as [|fuel] eqn:EL; [lia|].
    cbn [extract_loop bitlen]. assert (G : (0 <? L) = true) by (apply Z.ltb_lt; lia).
    rewrite G. unfold extract_step at 1. cbn [value index_byte index_bitofbyte bitlen].
    fold o. rewrite !(u8_small o) by lia. rewrite (u8_small (startbit / 8)) by lia.
    assert (G8 : (8 <=? o + L) = false) by (apply Z.leb_gt; lia). rewrite G8.
    rewrite (u8_small (8 - (o + L))) by lia.
    rewrite ones_shiftr by lia.
    replace (L - (8 - o - (8 - (o + L)))) with 0 by lia.
    rewrite (u8_small 0) by lia. rewrite Z.sub_diag.
    assert (Stop : forall s, bitlen s = 0 -> extract_loop fuel data endian L s = s).
    { intros s Hs0. destruct fuel; cbn [extract_loop]; [reflexivity|].
      rewrite Hs0. reflexivity. }
    rewrite Stop by reflexivity. cbn [value].
    rewrite Z.land_ones by lia. rewrite Z.shiftr_div_pow2 by lia.
    unfold shl_int. cbn [Z.ltb Z.compare]. rewrite Z.shiftl_0_r.
    rewrite i32_small; [reflexivity|].
    assert (B := Z.mod_pos_bound (byte_at data (startbit / 8) / 2 ^ o) (2 ^ (o + L))
                   ltac:(apply Z.pow_pos_nonneg; lia)).
    assert (2 ^ (o + L) <= 2 ^ 8) by (apply Z.pow_le_mono_r; lia).
    change (2 ^ 8) with 256 in *. change (2 ^ 31) with 2147483648. lia. }
  split; [exact E|]. rewrite E.
  rewrite mod_mod_pow2 by lia.
  unfold encoded_field. rewrite Z.shiftr_div_pow2, Z.land_ones by lia.
  assert (W : byte_weight endian (startbit / 8) + o = field_lsb endian startbit + 0).
  { unfold byte_weight, field_lsb, o. destruct He as [-> | ->]; cbn [Z.eqb].
    - pose proof (Z.div_mod startbit 8). lia.
    - lia. }
  rewrite (byte_bits data endian (field_lsb endian startbit) Hd He Hp (startbit / 8) o 0 L)
    by lia.
  now rewrite Z.div_1_r.
Qed.

Lemma in_byte_field_decoded_witness :
  extract_field [255; 0; 0; 0; 0; 0; 0; 0] 0 2 2 = 15 /\
  15 mod 2 ^ 2 = encoded_field [255; 0; 0; 0; 0; 0; 0; 0] 0 2 2.
Proof.
  destruct (in_byte_field_decoded [255; 0; 0; 0; 0; 0; 0; 0] 0 2 2) as [H1 H2].
  - split; [reflexivity|]. repeat (constructor; [lia|]). constructor.
  - unfold valid_field. repeat split; lia.
  - reflexivity.
  - split; [exact H1 | exact H2].
Defined.

Lemma msec_to_sec_table :
  let tbl := map (fun m => (Z.of_nat m, msec_to_sec (Z.of_nat m))) (seq 0 1000) in
  forallb (fun p2 =>
             (0 <=? snd p2)%float && (snd p2 <? 1)%float &&
             forallb (fun p1 => if fst p1 <? fst p2
                                then (snd p1 <? snd p2)%float else true) tbl)
          tbl = true.
Proof. vm_compute. reflexivity. Qed.

(** X10: for millisecond counters 0..999 the fraction of a second handed
    to the time resolver, computed in single precision, is at least 0,
    below 1 and strictly increasing in the counter. *)
Theorem msec_to_sec_fraction m1 m2 :
  0 <= m1 -> m1 < m2 -> m2 < 1000 ->
  (0 <=? msec_to_sec m1)%float = true /\
  (msec_to_sec m2 <? 1)%float = true /\
  (msec_to_sec m1 <? msec_to_sec m2)%float = true.
Proof.
  intros H0 H12 H2.
  pose proof msec_to_sec_table as T. cbv zeta in T. rewrite forallb_forall in T.
  assert (I : forall m, 0 <= m < 1000 ->
            In (m, msec_to_sec m)
               (map (fun m => (Z.of_nat m, msec_to_sec (Z.of_nat m))) (seq 0 1000))).
  { intros m Hm. apply in_map_iff. exists (Z.to_nat m).
    rewrite Z2Nat.id by lia. split; [reflexivity | apply in_seq; lia]. }
  assert (T1 := T _ (I m1 ltac:(lia))). assert (T2 := T _ (I m2 ltac:(lia))).
  cbn [fst snd] in T1, T2.
  apply andb_true_iff in T1. destruct T1 as [T1 _].
  apply andb_true_iff in T1. destruct T1 as [T1 _].
  apply andb_true_iff in T2. destruct T2 as [T2 T3].
  apply andb_true_iff in T2. destruct T2 as [_ T2].
  rewrite forallb_forall in T3. specialize (T3 _ (I m1 ltac:(lia))).
  cbn [fst snd] in T3. apply Z.ltb_lt in H12. rewrite H12 in T3.
  now repeat split.
Qed.

Lemma msec_to_sec_fraction_witness :
  (msec_to_sec 499 <? msec_to_sec 500)%float = true /\
  (msec_to_sec 500 <? 1)%float = true.
Proof.
  destruct (msec_to_sec_fraction 499 500) as (_ & H1 & H2); try lia.
  split; [exact H2 | exact H1].
Defined.

End CarMoreFacts.

(** ** More of the pulse handler *)

Module PpsMoreFacts.
Import CInt CIntFacts Pps PpsMore PpsFacts.

Lemma handler_anchor env g :
  time (g_MCU_time (fst (ST_PPS_IRQ env g))) =
  if (PPSstate env =? 0) && latch_guard env g then get_obs_time env
  else time (g_MCU_time g).
Proof.
  unfold ST_PPS_IRQ. destruct (PPSstate env =? 0); cbn [andb fst].
  - unfold falling_edge. cbn. reflexivity.
  - reflexivity.
Qed.

(** X12: as long as [get_gnss_signal_flag] is the weak default, no
    sequence of pulse edges changes the absolute-time anchor. *)
Theorem weak_flag_freezes_anchor envs g :
  Forall (fun env => get_gnss_signal_flag env = weak_get_gnss_signal_flag) envs ->
  time (g_MCU_time (fst (pps_run envs g))) = time (g_MCU_time g).
Proof.
  intros H. revert g. induction H as [| env rest He _ IH]; intros g.
  - reflexivity.
  - cbn [pps_run fst]. rewrite IH, handler_anchor.
    unfold latch_guard. rewrite He. cbn. now rewrite andb_false_r.
Qed.

Lemma weak_flag_freezes_anchor_witness :
  let fall := mkPpsEnv false 77 0 weak_get_gnss_signal_flag weak_get_obs_time in
  let rise := mkPpsEnv false 77 1 weak_get_gnss_signal_flag weak_get_obs_time in
  let g := mkPpsGlobals (mkTimeBase 999 100) (mkTimeBase 999 40) 0 7 7 in
  time (g_MCU_time (fst (pps_run [fall; rise; fall] g))) = 999.
Proof.
  intros fall rise g. apply (weak_flag_freezes_anchor [fall; rise; fall] g).
  repeat constructor.
Defined.

Lemma released_needs_low_msec env g :
  released (ST_PPS_IRQ env g) = true -> msec (g_MCU_time g) < 500.
Proof.
  unfold ST_PPS_IRQ, released.
  destruct (PPSstate env =? 0); cbn [snd]; [|discriminate].
  unfold maybe_release.
  destruct (msec (g_MCU_time g) <? 500) eqn:M; [now apply Z.ltb_lt in M|].
  cbn. discriminate.
Qed.

(** X13: the edge handled right after a falling edge, with the
    millisecond counter not yet advanced by anything else, releases no
    semaphore. *)
Theorem no_second_release env1 env2 g :
  PPSstate env1 = 0 ->
  released (ST_PPS_IRQ env2 (fst (ST_PPS_IRQ env1 g))) = false.
Proof.
  intros Hp.
  destruct (released (ST_PPS_IRQ env2 (fst (ST_PPS_IRQ env1 g)))) eqn:R;
    [|reflexivity].
  apply released_needs_low_msec in R.
  unfold ST_PPS_IRQ in R. rewrite Hp in R. cbn in R. lia.
Qed.

Lemma no_second_release_witness :
  let env := mkPpsEnv false 77 0 1 1000 in
  let g := mkPpsGlobals (mkTimeBase 999 100) (mkTimeBase 999 40) 0 7 7 in
  released (ST_PPS_IRQ env g) = true /\
  released (ST_PPS_IRQ env (fst (ST_PPS_IRQ env g))) = false.
Proof.
  intros env g. split; [reflexivity|]. now apply no_second_release.
Defined.

(** X14: on either edge the handler sets [g_pps_flag], leaves
    [g_obs_rcv_time] alone, enters and exits the ISR bracket first and
    last, calls the HAL handler exactly once, and releases at most one
    semaphore, which is then the non-null [dataAcqSem]. *)
Theorem handler_protocol env g :
  let r := ST_PPS_IRQ env g in
  g_pps_flag (fst r) = 1 /\
  g_obs_rcv_time (fst r) = g_obs_rcv_time g /\
  hd_error (snd r) = Some OSEnterISR /\
  last (snd r) OSEnterISR = OSExitISR /\
  List.length (filter (fun e => match e with HAL_GPIO_EXTI_IRQHandler => true | _ => false end)
                 (snd r)) = 1%nat /\
  (forall sem, In (release_sem sem) (snd r) -> sem = dataAcqSem env /\ sem <> 0) /\
  (List.length (filter is_release (snd r)) <= 1)%nat.
Proof.
  intros r. subst r. unfold ST_PPS_IRQ.
  destruct (PPSstate env =? 0); cbn [fst snd]; [unfold falling_edge, maybe_release|].
  1: destruct (msec (g_MCU_time g) <? 500), (BAREMETAL_OS env),
       (dataAcqSem env =? 0) eqn:S.
  all: cbn; repeat split; try lia; try reflexivity.
  all: repeat match goal with
         | H : _ \/ _ |- _ => destruct H as [H | H]
         | H : False |- _ => contradiction
         | H : release_sem _ = release_sem _ |- _ => injection H as <-
         | H : _ = release_sem _ |- _ => discriminate H
         end.
  all: try reflexivity; now apply Z.eqb_neq.
Qed.

Lemma handler_protocol_witness :
  let env := mkPpsEnv false 77 0 1 1000 in
  let g := mkPpsGlobals (mkTimeBase 999 100) (mkTimeBase 999 40) 0 7 7 in
  In (release_sem 77) (snd (ST_PPS_IRQ env g)) /\ 77 = dataAcqSem env /\ 77 <> 0.
Proof.
  intros env g.
  assert (I : In (release_sem 77) (snd (ST_PPS_IRQ env g))) by (cbn; tauto).
  split; [exact I|].
  destruct (handler_protocol env g) as (_ & _ & _ & _ & _ & H & _).
  exact (H 77 I).
Defined.

End PpsMoreFacts.

(** ** The eigen-solver *)

Module EigFacts.
Import CInt CIntFacts Eig.

(** *** Loops over [ints] *)
Lemma ints_succ n : 0 <= n -> ints (n + 1) = ints n ++ [n].
Proof.
  intros H. unfold ints. replace (Z.to_nat (n + 1)) with (S (Z.to_nat n)) by lia.
  rewrite seq_S, map_app. cbn. now rewrite Z2Nat.id by lia.
Qed.

Lemma fold_ints_ind {A} (P : Z -> A -> Prop) (f : A -> Z -> A) n a0 :
  0 <= n -> P 0 a0 ->
  (forall i a, 0 <= i < n -> P i a -> P (i + 1) (f a i)) ->
  P n (fold_left f (ints n) a0).
Proof.
  intros Hn H0 Hstep.
  assert (G : forall m, (m <= Z.to_nat n)%nat ->
              P (Z.of_nat m) (fold_left f (ints (Z.of_nat m)) a0)).
  { induction m as [|m IH]; intros Hm.
    - exact H0.
    - rewrite Nat2Z.inj_succ, <- Z.add_1_r. rewrite ints_succ by lia.
      rewrite fold_left_app. cbn [fold_left]. apply Hstep; [lia|]. apply IH. lia. }
  specialize (G (Z.to_nat n) (Nat.le_refl _)). now rewrite Z2Nat.id in G by lia.
Qed.

Lemma ints_nonpos n : n <= 0 -> ints n = [].
Proof. intros H. unfold ints. now replace (Z.to_nat n) with 0%nat by lia. Qed.

(** *** The scan budget *)
Lemma eig_loop_returns fuel :
  forall a v n eps jt l p q,
  jt < 2 ^ 31 - 1 -> - 2 ^ 31 <= l ->
  jt - l + 2 <= Z.of_nat fuel -> (1 <= fuel)%nat ->
  exists r a' v', eig_loop fuel a v n eps jt l p q = Some (r, a', v') /\
                  (r = 1 \/ r = -1).
Proof.
  induction fuel as [|fuel IH]; intros a v n eps jt l p q Hjt Hl Hf H1; [lia|].
  cbn [eig_loop]. destruct (scan a n p q) as [[fm p'] q'].
  destruct (fm <? eps)%float; [do 3 eexists; split; [reflexivity | now left]|].
  destruct (jt <? l) eqn:E; [do 3 eexists; split; [reflexivity | now right]|].
  apply Z.ltb_ge in E.
  destruct (rotate a v n p' q') as [a' v'].
  change (2 ^ 31) with 2147483648 in *.
  rewrite i32_small by (change (2 ^ 31) with 2147483648; lia).
  apply IH; change (2 ^ 31) with 2147483648; lia.
Qed.

Lemma eig_loop_no_budget fuel a v n eps jt l p q r a' v' :
  jt < l -> eig_loop fuel a v n eps jt l p q = Some (r, a', v') ->
  a' = a /\ v' = v.
Proof.
  intros Hjt. destruct fuel; cbn [eig_loop]; [discriminate|].
  destruct (scan a n p q) as [[fm p'] q'].
  destruct (fm <? eps)%float; [intros H; injection H as _ <- <-; now split|].
  apply Z.ltb_lt in Hjt. rewrite Hjt. intros H; injection H as _ <- <-; now split.
Qed.

(** X15: for every [jt] below [INT_MAX] the solver returns after at most
    [max(jt, 0) + 1] scans of the matrix, with 1 or -1; when [jt] is
    below 1 it returns without having rotated: [a] is as it was and [v] is
    what the initialisation wrote. *)
Theorem eig_returns_within_budget a n v eps jt :
  jt < 2 ^ 31 - 1 ->
  exists r a' v',
    realSymmetricMtxEig (S (Z.to_nat jt)) a n v eps jt = Some (r, a', v') /\
    (r = 1 \/ r = -1) /\
    (jt < 1 -> a' = a /\ v' = init_v n v).
Proof.
  intros Hjt. unfold realSymmetricMtxEig.
  destruct (eig_loop_returns (S (Z.to_nat jt)) a (init_v n v) n eps jt 1 0 0)
    as (r & a' & v' & E & R);
    [exact Hjt | change (2 ^ 31) with 2147483648; lia | lia | lia |].
  exists r, a', v'. split; [exact E|]. split; [exact R|].
  intros Hlow. now apply (eig_loop_no_budget _ _ _ _ _ _ _ _ _ _ _ _ Hlow E).
Qed.

(** *** Arrays and the identity written into [v] *)
Lemma upd_length a : forall k x, List.length (upd a k x) = List.length a.
Proof.
  induction a as [|y a IH]; intros k x; [reflexivity|].
  destruct k; cbn [upd List.length]; [reflexivity | now rewrite IH].
Qed.

Lemma nth_upd a : forall k k' x,
  nth k' (upd a k x) 0%float =
  if (k' =? k)%nat && (k <? List.length a)%nat then x else nth k' a 0%float.
Proof.
  induction a as [|y a IH]; intros k k' x.
  - cbn. destruct k'; now rewrite andb_false_r.
  - destruct k as [|k], k' as [|k']; cbn [upd nth List.length]; try reflexivity.
    rewrite IH. reflexivity.
Qed.

Lemma aset_length a k x : List.length (aset a k x) = List.length a.
Proof. unfold aset. destruct (k <? 0); [reflexivity | apply upd_length]. Qed.

Lemma aget_aset a k k' x :
  0 <= k < Z.of_nat (List.length a) ->
  aget (aset a k x) k' = if k' =? k then x else aget a k'.
Proof.
  intros Hk. unfold aget, aset.
  assert (E : (k <? 0) = false) by (apply Z.ltb_ge; lia). rewrite E.
  destruct (k' <? 0) eqn:N.
  - apply Z.ltb_lt in N. destruct (Z.eqb_spec k' k); [lia | reflexivity].
  - apply Z.ltb_ge in N. rewrite nth_upd.
    assert (L : (Z.to_nat k <? List.length a)%nat = true) by (apply Nat.ltb_lt; lia).
    rewrite L, andb_true_r.
    destruct (Z.eqb_spec k' k) as [-> | D].
    + now rewrite Nat.eqb_refl.
    + assert (F : (Z.to_nat k' =? Z.to_nat k)%nat = false) by (apply Nat.eqb_neq; lia).
      now rewrite F.
Qed.

Lemma idx_small i n j :
  0 <= i < n -> 0 <= j < n -> n * n < 2 ^ 31 -> idx i n j = i * n + j.
Proof.
  intros Hi Hj Hn. unfold idx. change (2 ^ 31) with 2147483648 in Hn.
  assert (0 <= i * n) by nia. assert (i * n + j < n * n) by nia.
  rewrite (i32_small (i * n)) by (change (2 ^ 31) with 2147483648; lia).
  apply i32_small. change (2 ^ 31) with 2147483648. lia.
Qed.

Lemma cell_row_col i n j :
  0 <= i -> 0 <= j < n -> (i * n + j) / n = i /\ (i * n + j) mod n = j.
Proof.
  intros Hi Hj. split.
  - symmetry. apply Z.div_unique with (r := j); lia.
  - symmetry. apply Z.mod_unique with (q := i); lia.
Qed.

Section Identity.
Variables (n : Z) (v0 : list float).
Hypothesis Hn : 0 <= n.
Hypothesis Hsmall : n * n < 2 ^ 31.
Hypothesis Hlen : n * n <= Z.of_nat (List.length v0).

Let ident (k : Z) : float := if k / n =? k mod n then 1%float else 0%float.

Let done_to (bound diag : Z) (w : list float) : Prop :=
  List.length w = List.length v0 /\
  forall k, 0 <= k ->
    aget w k = if (k <? bound) || (k =? diag) then ident k else aget v0 k.

Lemma ident_cell i j :
  0 <= i -> 0 <= j < n -> ident (i * n + j) = if i =? j then 1%float else 0%float.
Proof.
  intros Hi Hj. unfold ident.
  destruct (cell_row_col i n j) as [-> ->]; try lia. reflexivity.
Qed.

Ltac bcases :=
  repeat match goal with
         | |- context [?a <? ?b] => destruct (Z.ltb_spec a b)
         | |- context [?a =? ?b] => destruct (Z.eqb_spec a b)
         end;
  cbn [orb andb negb]; try reflexivity; try lia.

Lemma init_row_done i w :
  0 <= i < n -> done_to (i * n) (-1) w ->
  done_to ((i + 1) * n) (-1) (init_row n w i).
Proof.
  intros Hi [Lw Hw]. unfold init_row.
  assert (Hd : idx i n i = i * n + i) by (apply idx_small; lia).
  assert (Rd : 0 <= i * n + i < n * n) by nia.
  assert (G : done_to (i * n + n) (i * n + i)
                (fold_left (fun v j => if negb (i =? j)
                                       then aset v (idx i n j) 0%float else v)
                           (ints n) (aset w (idx i n i) 1%float))).
  { apply (fold_ints_ind (fun j u => done_to (i * n + j) (i * n + i) u)); [exact Hn | |].
    - split; [now rewrite aset_length|]. intros k Hk.
      rewrite Hd, aget_aset by lia. rewrite Hw by exact Hk.
      destruct (Z.eqb_spec k (i * n + i)) as [-> | D].
      + rewrite orb_true_r, ident_cell by lia. now rewrite Z.eqb_refl.
      + generalize (ident k). intros f. bcases.
    - intros j u Hj [Lu Hu].
      assert (Hij : idx i n j = i * n + j) by (apply idx_small; lia).
      assert (Rj : 0 <= i * n + j < n * n) by nia.
      destruct (Z.eqb_spec i j) as [<- | D]; cbn [negb].
      + split; [exact Lu|]. intros k Hk. rewrite Hu by exact Hk.
        generalize (ident k). intros f. bcases.
      + split; [now rewrite aset_length|]. intros k Hk.
        rewrite Hij, aget_aset by lia. rewrite Hu by exact Hk.
        destruct (Z.eqb_spec k (i * n + j)) as [-> | D'].
        * rewrite ident_cell by lia.
          assert (T : (i * n + j <? i * n + (j + 1)) = true) by (apply Z.ltb_lt; lia).
          rewrite T. cbn [orb]. destruct (Z.eqb_spec i j); [contradiction | reflexivity].
        * generalize (ident k). intros f. bcases. }
  destruct G as [LG HG]. split; [exact LG|]. intros k Hk. rewrite HG by exact Hk.
  replace ((i + 1) * n) with (i * n + n) by lia.
  generalize (ident k). intros f. bcases.
Qed.

Lemma init_v_done : done_to (n * n) (-1) (init_v n v0).
Proof.
  unfold init_v.
  apply (fold_ints_ind (fun i u => done_to (i * n) (-1) u)); [exact Hn | |].
  - split; [reflexivity|]. intros k Hk. generalize (ident k). intros f. bcases.
  - intros i u Hi H. now apply init_row_done.
Qed.

Lemma init_v_identity :
  List.length (init_v n v0) = List.length v0 /\
  (forall i j, 0 <= i < n -> 0 <= j < n ->
     aget (init_v n v0) (i * n + j) = if i =? j then 1%float else 0%float) /\
  (forall k, n * n <= k -> aget (init_v n v0) k = aget v0 k).
Proof.
  destruct init_v_done as [L H]. split; [exact L|]. split.
  - intros i j Hi Hj. rewrite H by nia.
    assert (T : (i * n + j <? n * n) = true) by (apply Z.ltb_lt; nia).
    rewrite T. cbn [orb]. apply ident_cell; lia.
  - intros k Hk. rewrite H by nia. generalize (ident k). intros f.
    destruct (Z.ltb_spec k (n * n)); [lia|].
    destruct (Z.eqb_spec k (-1)); [nia | reflexivity].
Qed.
End Identity.

Lemma scan_below a n eps p q :
  (0 <? eps)%float = true ->
  (forall i j, 0 <= i < n -> 0 <= j < n -> i <> j ->
     (abs (aget a (idx i n j)) <? eps)%float = true) ->
  (fst (fst (scan a n p q)) <? eps)%float = true.
Proof.
  intros H0 Hoff. unfold scan.
  destruct (Z.le_gt_cases 0 n) as [Hn | Hn];
    [|rewrite ints_nonpos by lia; exact H0].
  apply (fold_ints_ind (fun _ st => (fst (fst st) <? eps)%float = true));
    [exact Hn | exact H0 |].
  intros i st Hi Hst.
  apply (fold_ints_ind (fun _ st => (fst (fst st) <? eps)%float = true));
    [exact Hn | exact Hst |].
  intros j [[fm p'] q'] Hj Hfm. unfold scan_cell.
  destruct (Z.eqb_spec i j) as [E | D]; cbn [negb andb]; [exact Hfm|].
  destruct (fm <? abs (aget a (idx i n j)))%float; [|exact Hfm].
  cbn [fst]. now apply Hoff.
Qed.

(** X16: if [eps] is positive and every off-diagonal entry of the
    [n x n] matrix is below [eps] in magnitude, the solver returns 1 at
    once, leaves [a] untouched, and [v] holds the identity matrix in its
    first [n * n] cells, the rest of [v] being unchanged. *)
Theorem eig_converged_input fuel a n v eps jt :
  0 <= n -> n * n < 2 ^ 31 -> n * n <= Z.of_nat (List.length v) ->
  (0 <? eps)%float = true ->
  (forall i j, 0 <= i < n -> 0 <= j < n -> i <> j ->
     (abs (aget a (i * n + j)) <? eps)%float = true) ->
  exists v',
    realSymmetricMtxEig (S fuel) a n v eps jt = Some (1, a, v') /\
    List.length v' = List.length v /\
    (forall i j, 0 <= i < n -> 0 <= j < n ->
       aget v' (i * n + j) = if i =? j then 1%float else 0%float) /\
    (forall k, n * n <= k -> aget v' k = aget v k).
Proof.
  intros Hn Hs Hl H0 Hoff. exists (init_v n v).
  split; [|now apply init_v_identity].
  unfold realSymmetricMtxEig. cbn [eig_loop].
  assert (B : (fst (fst (scan a n 0 0)) <? eps)%float = true).
  { apply scan_below; [exact H0|]. intros i j Hi Hj D.
    rewrite idx_small by assumption. now apply Hoff. }
  destruct (scan a n 0 0) as [[fm p] q]. cbn [fst] in B. now rewrite B.
Qed.

Lemma eig_converged_input_witness :
  exists v',
    realSymmetricMtxEig 1 [3; 0x1p-30; 0x1p-30; 5]%float 2 [9; 9; 9; 9; 7]%float
                        0x1p-20 30
    = Some (1, [3; 0x1p-30; 0x1p-30; 5]%float, v') /\
    aget v' 0 = 1%float /\ aget v' 1 = 0%float /\ aget v' 4 = 7%float.
Proof.
  destruct (eig_converged_input 0 [3; 0x1p-30; 0x1p-30; 5]%float 2
              [9; 9; 9; 9; 7]%float 0x1p-20 30) as (v' & E & _ & I & K).
  - lia.
  - change (2 ^ 31) with 2147483648. lia.
  - cbn. lia.
  - reflexivity.
  - intros i j Hi Hj D.
    assert (C : (i = 0 /\ j = 1) \/ (i = 1 /\ j = 0)) by lia.
    destruct C as [[-> ->] | [-> ->]]; reflexivity.
  - exists v'. split; [exact E|]. split; [|split].
    + apply (I 0 0); lia.
    + apply (I 0 1); lia.
    + apply (K 4). lia.
Defined.

Lemma eig_returns_within_budget_witness :
  exists r a' v',
    realSymmetricMtxEig 3 [2; 1; 1; 2]%float 2 [9; 9; 9; 9]%float 0x1p-20 2
    = Some (r, a', v') /\ (r = 1 \/ r = -1).
Proof.
  destruct (eig_returns_within_budget [2; 1; 1; 2]%float 2 [9; 9; 9; 9]%float
              0x1p-20 2) as (r & a' & v' & E & R & _).
  - change (2 ^ 31) with 2147483648. lia.
  - exists r, a', v'. split; [exact E | exact R].
Defined.

(** *** One rotation *)
Lemma aget_aset_other a k k' x : k' <> k -> aget (aset a k x) k' = aget a k'.
Proof.
  intros D. unfold aget, aset.
  destruct (k <? 0) eqn:N; [reflexivity|]. apply Z.ltb_ge in N.
  destruct (k' <? 0) eqn:N'; [reflexivity|]. apply Z.ltb_ge in N'.
  rewrite nth_upd.
  assert (F : (Z.to_nat k' =? Z.to_nat k)%nat = false) by (apply Nat.eqb_neq; lia).
  now rewrite F.
Qed.

Lemma rotate_pair_other cn sn a u w k :
  k <> u -> k <> w -> aget (rotate_pair cn sn a u w) k = aget a k.
Proof.
  intros Du Dw. unfold rotate_pair. now rewrite !aget_aset_other by assumption.
Qed.

Lemma rotate_pair_length cn sn a u w :
  List.length (rotate_pair cn sn a u w) = List.length a.
Proof. unfold rotate_pair. now rewrite !aset_length. Qed.

Lemma cell_inj n i j i' j' :
  0 <= i -> 0 <= i' -> 0 <= j < n -> 0 <= j' < n ->
  i * n + j = i' * n + j' -> i = i' /\ j = j'.
Proof.
  intros Hi Hi' Hj Hj' E.
  destruct (cell_row_col i n j Hi Hj) as [D M].
  destruct (cell_row_col i' n j' Hi' Hj') as [D' M'].
  rewrite E in D, M. split; congruence.
Qed.

Section Rotation.
Variables (n p q : Z).
Hypothesis Hsmall : n * n < 2 ^ 31.
Hypothesis Hp : 0 <= p < n.
Hypothesis Hq : 0 <= q < n.

(** A loop that rotates pairs of cells picked by [sel] keeps every cell
    that is none of those. *)
Lemma pair_loop_keeps cn sn (sel : Z -> bool) (cu cw : Z -> Z) a k :
  (forall j, 0 <= j < n -> sel j = true -> k <> cu j /\ k <> cw j) ->
  aget (fold_left (fun a j => if sel j then rotate_pair cn sn a (cu j) (cw j) else a)
                  (ints n) a) k = aget a k.
Proof.
  intros H.
  apply (fold_ints_ind (fun _ b => aget b k = aget a k)); [lia | reflexivity |].
  intros j b Hj Hb. destruct (sel j) eqn:S; [|exact Hb].
  destruct (H j Hj S) as [D1 D2]. now rewrite rotate_pair_other.
Qed.

Lemma pair_loop_length cn sn (sel : Z -> bool) (cu cw : Z -> Z) a :
  List.length (fold_left (fun a j => if sel j then rotate_pair cn sn a (cu j) (cw j) else a)
                 (ints n) a) = List.length a.
Proof.
  apply (fold_ints_ind (fun _ b => List.length b = List.length a)); [lia | reflexivity |].
  intros j b Hj Hb. destruct (sel j); [|exact Hb]. now rewrite rotate_pair_length.
Qed.

(** X17: a rotation about a pivot [(p, q)], [p <> q], leaves the two
    pivot cells [a[p][q]] and [a[q][p]] exactly 0, changes no cell of [a]
    outside rows and columns [p] and [q], changes no cell of [v] outside
    columns [p] and [q], and keeps both array lengths. *)
Theorem rotate_cells a v :
  p <> q -> n * n <= Z.of_nat (List.length a) ->
  let a' := fst (rotate a v n p q) in
  let v' := snd (rotate a v n p q) in
  aget a' (p * n + q) = 0%float /\ aget a' (q * n + p) = 0%float /\
  (forall i j, 0 <= i < n -> 0 <= j < n -> i <> p -> i <> q -> j <> p -> j <> q ->
     aget a' (i * n + j) = aget a (i * n + j)) /\
  (forall i j, 0 <= i < n -> 0 <= j < n -> j <> p -> j <> q ->
     aget v' (i * n + j) = aget v (i * n + j)) /\
  List.length a' = List.length a /\ List.length v' = List.length v.
Proof.
  intros Dpq Hlen a' v'. subst a' v'. unfold rotate. cbv zeta. cbn [fst snd].
  set (cn := sqrt _). set (sn := (_ / sqrt (2 * _))%float).
  set (a1 := aset (aset (aset (aset a _ _) _ _) _ _) _ _).
  assert (Ipq : idx p n q = p * n + q) by (apply idx_small; lia).
  assert (Iqp : idx q n p = q * n + p) by (apply idx_small; lia).
  assert (Ipp : idx p n p = p * n + p) by (apply idx_small; lia).
  assert (Iqq : idx q n q = q * n + q) by (apply idx_small; lia).
  assert (Rpq : 0 <= p * n + q < n * n) by nia.
  assert (Rqp : 0 <= q * n + p < n * n) by nia.
  assert (Npq : p * n + q <> q * n + p).
  { intros E. apply cell_inj in E; lia. }
  assert (Keep : forall b k,
            (forall j, 0 <= j < n -> k <> idx p n j \/ (j = p \/ j = q)) ->
            (forall j, 0 <= j < n -> k <> idx q n j \/ (j = p \/ j = q)) ->
            (forall i, 0 <= i < n -> k <> idx i n p \/ (i = p \/ i = q)) ->
            (forall i, 0 <= i < n -> k <> idx i n q \/ (i = p \/ i = q)) ->
            aget (fold_left
                    (fun a i => if negb (i =? p) && negb (i =? q)
                                then rotate_pair cn sn a (idx i n p) (idx i n q) else a)
                    (ints n)
                    (fold_left
                       (fun a j => if negb (j =? p) && negb (j =? q)
                                   then rotate_pair cn sn a (idx p n j) (idx q n j) else a)
                       (ints n) b)) k = aget b k).
  { intros b k K1 K2 K3 K4.
    rewrite (pair_loop_keeps cn sn (fun i => negb (i =? p) && negb (i =? q))
               (fun i => idx i n p) (fun i => idx i n q)).
    - apply (pair_loop_keeps cn sn (fun j => negb (j =? p) && negb (j =? q))
               (fun j => idx p n j) (fun j => idx q n j)).
      intros j Hj S. apply andb_true_iff in S. destruct S as [S1 S2].
      apply negb_true_iff, Z.eqb_neq in S1. apply negb_true_iff, Z.eqb_neq in S2.
      split; [destruct (K1 j Hj) | destruct (K2 j Hj)]; tauto.
    - intros i Hi S. apply andb_true_iff in S. destruct S as [S1 S2].
      apply negb_true_iff, Z.eqb_neq in S1. apply negb_true_iff, Z.eqb_neq in S2.
      split; [destruct (K3 i Hi) | destruct (K4 i Hi)]; tauto. }
  assert (Sep : forall i j i' j', 0 <= i < n -> 0 <= j < n -> 0 <= i' < n -> 0 <= j' < n ->
                  (i <> i' \/ j <> j') -> i * n + j <> idx i' n j').
  { intros i j i' j' Hi Hj Hi' Hj' D E. rewrite idx_small in E by lia.
    apply cell_inj in E; lia. }
  split; [|split; [|split; [|split; [|split]]]].
  - rewrite Keep.
    + subst a1. rewrite Iqp, aget_aset_other by lia.
      rewrite Ipq, aget_aset by (rewrite !aset_length; lia). now rewrite Z.eqb_refl.
    + intros j Hj. destruct (Z.eq_dec j q); [tauto|]. left. apply Sep; lia.
    + intros j Hj. left. apply Sep; lia.
    + intros i Hi. destruct (Z.eq_dec i p); [tauto|]. left. apply Sep; lia.
    + intros i Hi. destruct (Z.eq_dec i p); [tauto|]. left. apply Sep; lia.
  - rewrite Keep.
    + subst a1. rewrite Iqp, aget_aset by (rewrite !aset_length; lia).
      now rewrite Z.eqb_refl.
    + intros j Hj. left. apply Sep; lia.
    + intros j Hj. destruct (Z.eq_dec j p); [tauto|]. left. apply Sep; lia.
    + intros i Hi. destruct (Z.eq_dec i q); [tauto|]. left. apply Sep; lia.
    + intros i Hi. destruct (Z.eq_dec i q); [tauto|]. left. apply Sep; lia.
  - intros i j Hi Hj Dip Diq Djp Djq. rewrite Keep.
    + subst a1. rewrite Iqp, Ipq, Iqq, Ipp.
      rewrite !aget_aset_other; [reflexivity | | | |];
        intros E; apply cell_inj in E; lia.
    + intros j' Hj'. left. apply Sep; lia.
    + intros j' Hj'. left. apply Sep; lia.
    + intros i' Hi'. left. apply Sep; lia.
    + intros i' Hi'. left. apply Sep; lia.
  - intros i j Hi Hj Djp Djq.
    apply (pair_loop_keeps cn sn (fun _ => true) (fun i => idx i n p) (fun i => idx i n q)).
    intros i' Hi' _. split; apply Sep; lia.
  - rewrite !(pair_loop_length cn sn (fun i => negb (i =? p) && negb (i =? q))).
    subst a1. now rewrite !aset_length.
  - apply (pair_loop_length cn sn (fun _ => true)).
Qed.
End Rotation.

Lemma rotate_cells_witness :
  let a := [4; 1; 2; 1; 3; 0; 2; 0; 5]%float in
  let a' := fst (rotate a [1; 0; 0; 0; 1; 0; 0; 0; 1]%float 3 0 2) in
  aget a' 2 = 0%float /\ aget a' 6 = 0%float /\ aget a' 4 = 3%float.
Proof.
  intros a a'.
  destruct (rotate_cells 3 0 2 ltac:(change (2 ^ 31) with 2147483648; lia)
              ltac:(lia) ltac:(lia) a [1; 0; 0; 0; 1; 0; 0; 0; 1]%float)
    as (H1 & H2 & H3 & _).
  - discriminate.
  - cbn. lia.
  - split; [exact H1|]. split; [exact H2|].
    apply (H3 1 1); lia.
Defined.

(** *** Symmetry *)
Lemma rotate_pair_at cn sn a u w :
  u <> w -> 0 <= u < Z.of_nat (List.length a) -> 0 <= w < Z.of_nat (List.length a) ->
  aget (rotate_pair cn sn a u w) u = to_single (aget a u * cn + aget a w * sn)%float /\
  aget (rotate_pair cn sn a u w) w = to_single (- aget a u * sn + aget a w * cn)%float.
Proof.
  intros D Hu Hw. unfold rotate_pair. cbv zeta.
  assert (F : (u =? w) = false) by (apply Z.eqb_neq; lia).
  assert (F' : (w =? u) = false) by (apply Z.eqb_neq; lia).
  split.
  - rewrite aget_aset_other by lia. rewrite aget_aset by lia. now rewrite Z.eqb_refl.
  - rewrite aget_aset by (rewrite aset_length; lia). rewrite Z.eqb_refl.
    now rewrite (aget_aset_other a u w) by lia.
Qed.

Section PairLoop.
Variables (n : Z) (cn sn : float) (sel : Z -> bool) (cu cw : Z -> Z) (a : list float).
Hypothesis Hn : 0 <= n.
Hypothesis Hin : forall i, 0 <= i < n ->
  0 <= cu i < Z.of_nat (List.length a) /\ 0 <= cw i < Z.of_nat (List.length a).
Hypothesis Hcross : forall i i', 0 <= i < n -> 0 <= i' < n -> cu i <> cw i'.
Hypothesis Hinj : forall i i', 0 <= i < n -> 0 <= i' < n -> i <> i' ->
  cu i <> cu i' /\ cw i <> cw i'.

Let loop := fold_left (fun a j => if sel j then rotate_pair cn sn a (cu j) (cw j) else a)
                      (ints n) a.

(** Every pair the loop picks is rotated once, from the values the cells
    had before the loop. *)
Lemma pair_loop_sets j :
  0 <= j < n -> sel j = true ->
  aget loop (cu j) = to_single (aget a (cu j) * cn + aget a (cw j) * sn)%float /\
  aget loop (cw j) = to_single (- aget a (cu j) * sn + aget a (cw j) * cn)%float.
Proof.
  intros Hj S. unfold loop.
  pose (P := fun m b =>
            List.length b = List.length a /\
            (forall i, m <= i < n ->
               aget b (cu i) = aget a (cu i) /\ aget b (cw i) = aget a (cw i)) /\
            (forall i, 0 <= i < m -> sel i = true ->
               aget b (cu i) = to_single (aget a (cu i) * cn + aget a (cw i) * sn)%float /\
               aget b (cw i) = to_single (- aget a (cu i) * sn + aget a (cw i) * cn)%float)).
  assert (G : P n (fold_left (fun a j => if sel j then rotate_pair cn sn a (cu j) (cw j)
                                         else a) (ints n) a)).
  { apply (fold_ints_ind P); [exact Hn | |]; unfold P.
    - split; [reflexivity|]. split; [tauto | intros; lia].
    - intros i b Hi (L & Later & Done).
      destruct (sel i) eqn:Si.
      + split; [now rewrite rotate_pair_length|]. split.
        * intros i' Hi'.
          destruct (Hinj i i' Hi ltac:(lia) ltac:(lia)) as [D1 D2].
          pose proof (Hcross i i' Hi ltac:(lia)) as D3.
          pose proof (Hcross i' i ltac:(lia) Hi) as D4.
          rewrite !rotate_pair_other by congruence. apply Later. lia.
        * intros i' Hi' Si'.
          destruct (Z.eq_dec i' i) as [->|Ne].
          -- destruct (Later i ltac:(lia)) as [E1 E2]. rewrite <- E1, <- E2.
             apply rotate_pair_at; [apply Hcross; lia | rewrite L | rewrite L];
               apply Hin; lia.
          -- destruct (Hinj i i' Hi ltac:(lia) ltac:(lia)) as [D1 D2].
             pose proof (Hcross i i' Hi ltac:(lia)) as D3.
             pose proof (Hcross i' i ltac:(lia) Hi) as D4.
             rewrite !rotate_pair_other by congruence. apply Done; [lia | exact Si'].
      + split; [exact L|]. split.
        * intros i' Hi'. apply Later. lia.
        * intros i' Hi' Si'. destruct (Z.eq_dec i' i) as [->|Ne]; [congruence|].
          apply Done; [lia | exact Si']. }
  destruct G as (_ & _ & Done). apply Done; assumption.
Qed.
End PairLoop.

Lemma cell_sep n i j i' j' :
  0 <= i < n -> 0 <= j < n -> 0 <= i' < n -> 0 <= j' < n ->
  i <> i' \/ j <> j' -> i * n + j <> i' * n + j'.
Proof. intros Hi Hj Hi' Hj' D E. apply cell_inj in E; lia. Qed.

Lemma cell_in n i j : 0 <= i < n -> 0 <= j < n -> 0 <= i * n + j < n * n.
Proof. intros Hi Hj. nia. Qed.

Section Symmetry.
Variables (n p q : Z).
Hypothesis Hsmall : n * n < 2 ^ 31.
Hypothesis Hp : 0 <= p < n.
Hypothesis Hq : 0 <= q < n.
Hypothesis Dpq : p <> q.
Variables (cn sn : float).

Let off (j : Z) : bool := negb (j =? p) && negb (j =? q).
Let rows (b : list float) : list float :=
  fold_left (fun a j => if off j then rotate_pair cn sn a (idx p n j) (idx q n j) else a)
            (ints n) b.
Let cols (b : list float) : list float :=
  fold_left (fun a i => if off i then rotate_pair cn sn a (idx i n p) (idx i n q) else a)
            (ints n) b.

Lemma off_true j : off j = true <-> j <> p /\ j <> q.
Proof.
  unfold off. rewrite andb_true_iff, !negb_true_iff, !Z.eqb_neq. tauto.
Qed.

(** What the row loop leaves in [a]. *)
Lemma rows_cells b :
  n * n <= Z.of_nat (List.length b) ->
  List.length (rows b) = List.length b /\
  (forall i j, 0 <= i < n -> 0 <= j < n ->
     (i <> p /\ i <> q) \/ ~ (j <> p /\ j <> q) ->
     aget (rows b) (i * n + j) = aget b (i * n + j)) /\
  (forall j, 0 <= j < n -> j <> p -> j <> q ->
     aget (rows b) (p * n + j)
       = to_single (aget b (p * n + j) * cn + aget b (q * n + j) * sn)%float /\
     aget (rows b) (q * n + j)
       = to_single (- aget b (p * n + j) * sn + aget b (q * n + j) * cn)%float).
Proof.
  intros Hlen. split; [apply (pair_loop_length n p Hp)|]. split.
  - intros i j Hi Hj D. apply (pair_loop_keeps n p Hp).
    intros j' Hj' S. apply off_true in S. rewrite !idx_small by lia.
    split; apply cell_sep; lia.
  - intros j Hj D1 D2.
    pose proof (pair_loop_sets n cn sn off (fun j => idx p n j) (fun j => idx q n j) b
                  ltac:(lia)) as G.
    cbv beta in G.
    rewrite <- (idx_small p n j), <- (idx_small q n j) by lia.
    apply G; [| | | exact Hj | apply off_true; tauto].
    + intros i Hi. rewrite !idx_small by lia.
      pose proof (cell_in n p i Hp Hi). pose proof (cell_in n q i Hq Hi). lia.
    + intros i i' Hi Hi'. rewrite !idx_small by lia. apply cell_sep; lia.
    + intros i i' Hi Hi' D. rewrite !idx_small by lia. split; apply cell_sep; lia.
Qed.

(** What the column loop leaves in [a]. *)
Lemma cols_cells b :
  n * n <= Z.of_nat (List.length b) ->
  (forall i j, 0 <= i < n -> 0 <= j < n ->
     (j <> p /\ j <> q) \/ ~ (i <> p /\ i <> q) ->
     aget (cols b) (i * n + j) = aget b (i * n + j)) /\
  (forall i, 0 <= i < n -> i <> p -> i <> q ->
     aget (cols b) (i * n + p)
       = to_single (aget b (i * n + p) * cn + aget b (i * n + q) * sn)%float /\
     aget (cols b) (i * n + q)
       = to_single (- aget b (i * n + p) * sn + aget b (i * n + q) * cn)%float).
Proof.
  intros Hlen. split.
  - intros i j Hi Hj D. apply (pair_loop_keeps n p Hp).
    intros i' Hi' S. apply off_true in S. rewrite !idx_small by lia.
    split; apply cell_sep; lia.
  - intros i Hi D1 D2.
    pose proof (pair_loop_sets n cn sn off (fun i => idx i n p) (fun i => idx i n q) b
                  ltac:(lia)) as G.
    cbv beta in G.
    rewrite <- (idx_small i n p), <- (idx_small i n q) by lia.
    apply G; [| | | exact Hi | apply off_true; tauto].
    + intros j Hj. rewrite !idx_small by lia.
      pose proof (cell_in n j p Hj Hp). pose proof (cell_in n j q Hj Hq). lia.
    + intros j j' Hj Hj'. rewrite !idx_small by lia. apply cell_sep; lia.
    + intros j j' Hj Hj' D. rewrite !idx_small by lia. split; apply cell_sep; lia.
Qed.

(** The two loops take a matrix that is symmetric, with equal pivot
    cells, to one that is symmetric. *)
Lemma loops_keep_symmetry b :
  n * n <= Z.of_nat (List.length b) ->
  (forall i j, 0 <= i < n -> 0 <= j < n -> aget b (i * n + j) = aget b (j * n + i)) ->
  forall i j, 0 <= i < n -> 0 <= j < n ->
    aget (cols (rows b)) (i * n + j) = aget (cols (rows b)) (j * n + i).
Proof.
  intros Hlen Sym i j Hi Hj.
  destruct (rows_cells b Hlen) as (RL & RK & RS).
  assert (Hlen' : n * n <= Z.of_nat (List.length (rows b))) by (rewrite RL; exact Hlen).
  destruct (cols_cells (rows b) Hlen') as (CK & CS).
  destruct (Z.eq_dec i j) as [->|Dij]; [reflexivity|].
  assert (Cases : forall x, x = p \/ x = q \/ (x <> p /\ x <> q)) by (intros; lia).
  destruct (Cases i) as [-> | [-> | [Ip Iq]]]; destruct (Cases j) as [-> | [-> | [Jp Jq]]];
    try lia.
  - (* (p, q) and (q, p) *)
    rewrite !CK by lia. rewrite !RK by lia. apply Sym; lia.
  - (* (p, j) and (j, p) *)
    rewrite CK by lia. destruct (RS j Hj Jp Jq) as [E _]. rewrite E.
    destruct (CS j Hj Jp Jq) as [E' _]. rewrite E'.
    rewrite !RK by lia. now rewrite (Sym j p), (Sym j q) by lia.
  - rewrite !CK by lia. rewrite !RK by lia. apply Sym; lia.
  - (* (q, j) and (j, q) *)
    rewrite CK by lia. destruct (RS j Hj Jp Jq) as [_ E]. rewrite E.
    destruct (CS j Hj Jp Jq) as [_ E']. rewrite E'.
    rewrite !RK by lia. now rewrite (Sym j p), (Sym j q) by lia.
  - rewrite (CK p i) by lia. destruct (RS i Hi Ip Iq) as [E _]. rewrite E.
    destruct (CS i Hi Ip Iq) as [E' _]. rewrite E'.
    rewrite !RK by lia. now rewrite (Sym i p), (Sym i q) by lia.
  - rewrite (CK q i) by lia. destruct (RS i Hi Ip Iq) as [_ E]. rewrite E.
    destruct (CS i Hi Ip Iq) as [_ E']. rewrite E'.
    rewrite !RK by lia. now rewrite (Sym i p), (Sym i q) by lia.
  - rewrite !CK by lia. rewrite !RK by lia. apply Sym; lia.
Qed.

End Symmetry.

(** A rotation about a pivot [(p, q)], [p <> q], takes a symmetric matrix
    to a symmetric matrix, cell for cell. *)
Lemma rotate_keeps_symmetry n p q a v :
  n * n < 2 ^ 31 -> 0 <= p < n -> 0 <= q < n -> p <> q ->
  n * n <= Z.of_nat (List.length a) ->
  (forall i j, 0 <= i < n -> 0 <= j < n -> aget a (i * n + j) = aget a (j * n + i)) ->
  forall i j, 0 <= i < n -> 0 <= j < n ->
    aget (fst (rotate a v n p q)) (i * n + j) = aget (fst (rotate a v n p q)) (j * n + i).
Proof.
  intros Hsmall Hp Hq Dpq Hlen Sym. unfold rotate. cbv zeta. cbn [fst].
  set (cn := sqrt _). set (sn := (_ / sqrt (2 * _))%float).
  set (a1 := aset (aset (aset (aset a _ _) _ _) _ _) _ _).
  apply (loops_keep_symmetry n p q Hsmall Hp Hq Dpq cn sn a1).
  - subst a1. now rewrite !aset_length.
  - intros i j Hi Hj. subst a1.
    rewrite !(idx_small _ n _) by lia.
    assert (Rpq := cell_in n p q Hp Hq). assert (Rqp := cell_in n q p Hq Hp).
    assert (Rpp := cell_in n p p Hp Hp). assert (Rqq := cell_in n q q Hq Hq).
    rewrite !aget_aset by (rewrite ?aset_length; lia).
    assert (B : forall i j i' j', 0 <= i < n -> 0 <= j < n -> 0 <= i' < n -> 0 <= j' < n ->
                (i * n + j =? i' * n + j') = (i =? i') && (j =? j')).
    { intros x y x' y' Hx Hy Hx' Hy'.
      destruct (Z.eqb_spec (x * n + y) (x' * n + y')) as [E|E].
      - apply cell_inj in E; lia.
      - symmetry. apply andb_false_iff.
        destruct (Z.eqb_spec x x'); destruct (Z.eqb_spec y y'); subst; tauto. }
    rewrite !B by lia.
    destruct (Z.eqb_spec i p); destruct (Z.eqb_spec i q); destruct (Z.eqb_spec j p);
      destruct (Z.eqb_spec j q); subst; cbn [andb]; try lia; try reflexivity;
      apply Sym; lia.
Qed.

Lemma rotate_a_length n p q a v :
  0 <= p < n -> List.length (fst (rotate a v n p q)) = List.length a.
Proof.
  intros Hp. unfold rotate. cbv zeta. cbn [fst].
  rewrite !(pair_loop_length n p Hp). now rewrite !aset_length.
Qed.

(** The scan either finds nothing above 0 and leaves [p] and [q] alone,
    or stops on an off-diagonal cell of the matrix. *)
Lemma scan_pivot a n p q :
  (fst (fst (scan a n p q)) = 0%float /\
   snd (fst (scan a n p q)) = p /\ snd (scan a n p q) = q) \/
  (0 <= snd (fst (scan a n p q)) < n /\ 0 <= snd (scan a n p q) < n /\
   snd (fst (scan a n p q)) <> snd (scan a n p q)).
Proof.
  unfold scan.
  destruct (Z.le_gt_cases 0 n) as [Hn | Hn];
    [|rewrite ints_nonpos by lia; left; cbn; tauto].
  pose (P := fun (_ : Z) (st : float * Z * Z) =>
          (fst (fst st) = 0%float /\ snd (fst st) = p /\ snd st = q) \/
          (0 <= snd (fst st) < n /\ 0 <= snd st < n /\ snd (fst st) <> snd st)).
  apply (fold_ints_ind P); [exact Hn | left; cbn; tauto |].
  intros i st Hi Hst.
  apply (fold_ints_ind P); [exact Hn | exact Hst |].
  intros j [[fm p'] q'] Hj Hfm. unfold scan_cell.
  destruct (Z.eqb_spec i j) as [E | D]; cbn [negb andb]; [exact Hfm|].
  destruct (fm <? abs (aget a (idx i n j)))%float; [|exact Hfm].
  right. cbn [fst snd]. lia.
Qed.

Lemma eig_loop_symmetric fuel :
  forall a v n eps jt l p q r a' v',
  n * n < 2 ^ 31 -> n * n <= Z.of_nat (List.length a) -> (0 <? eps)%float = true ->
  (forall i j, 0 <= i < n -> 0 <= j < n -> aget a (i * n + j) = aget a (j * n + i)) ->
  eig_loop fuel a v n eps jt l p q = Some (r, a', v') ->
  List.length a' = List.length a /\
  (forall i j, 0 <= i < n -> 0 <= j < n -> aget a' (i * n + j) = aget a' (j * n + i)).
Proof.
  induction fuel as [|fuel IH]; intros a v n eps jt l p q r a' v' Hs Hl H0 Sym;
    cbn [eig_loop]; [discriminate|].
  pose proof (scan_pivot a n p q) as Piv.
  destruct (scan a n p q) as [[fm p'] q']. cbn [fst snd] in Piv.
  destruct (fm <? eps)%float eqn:Efm;
    [intros H; injection H as _ <- _; now split|].
  destruct (jt <? l); [intros H; injection H as _ <- _; now split|].
  destruct Piv as [(-> & _ & _) | (Hp & Hq & Dpq)]; [congruence|].
  pose proof (rotate_keeps_symmetry n p' q' a v Hs Hp Hq Dpq Hl Sym) as Sym'.
  pose proof (rotate_a_length n p' q' a v Hp) as Len.
  destruct (rotate a v n p' q') as [a1 v1]. cbn [fst] in Sym', Len.
  intros H. apply IH in H; [| exact Hs | rewrite Len; exact Hl | exact H0 | exact Sym'].
  destruct H as [L S]. split; [congruence | exact S].
Qed.

(** X18: for a positive [eps] and a symmetric [n x n] matrix [a], the
    solver returns within [max(jt, 0) + 1] scans and the matrix it leaves
    in [a] is symmetric again, cell for cell, and of the same length. *)
Theorem eig_keeps_symmetry a n v eps jt :
  jt < 2 ^ 31 - 1 -> n * n < 2 ^ 31 -> n * n <= Z.of_nat (List.length a) ->
  (0 <? eps)%float = true ->
  (forall i j, 0 <= i < n -> 0 <= j < n -> aget a (i * n + j) = aget a (j * n + i)) ->
  exists r a' v',
    realSymmetricMtxEig (S (Z.to_nat jt)) a n v eps jt = Some (r, a', v') /\
    List.length a' = List.length a /\
    (forall i j, 0 <= i < n -> 0 <= j < n -> aget a' (i * n + j) = aget a' (j * n + i)).
Proof.
  intros Hjt Hs Hl H0 Sym. unfold realSymmetricMtxEig.
  destruct (eig_loop_returns (S (Z.to_nat jt)) a (init_v n v) n eps jt 1 0 0)
    as (r & a' & v' & E & _);
    [exact Hjt | change (2 ^ 31) with 2147483648; lia | lia | lia |].
  exists r, a', v'. split; [exact E|].
  exact (eig_loop_symmetric _ _ _ _ _ _ _ _ _ _ _ _ Hs Hl H0 Sym E).
Qed.

Lemma eig_keeps_symmetry_witness :
  exists r a' v',
    realSymmetricMtxEig 4 [4; 1; 2; 1; 3; 0; 2; 0; 5]%float 3
                        [9; 9; 9; 9; 9; 9; 9; 9; 9]%float 0x1p-20 3
    = Some (r, a', v') /\
    aget a' 1 = aget a' 3 /\ aget a' 2 = aget a' 6 /\ aget a' 5 = aget a' 7.
Proof.
  destruct (eig_keeps_symmetry [4; 1; 2; 1; 3; 0; 2; 0; 5]%float 3
              [9; 9; 9; 9; 9; 9; 9; 9; 9]%float 0x1p-20 3)
    as (r & a' & v' & E & _ & S).
  - change (2 ^ 31) with 2147483648. lia.
  - change (2 ^ 31) with 2147483648. lia.
  - cbn. lia.
  - reflexivity.
  - intros i j Hi Hj.
    assert (Ci : i = 0 \/ i = 1 \/ i = 2) by lia.
    assert (Cj : j = 0 \/ j = 1 \/ j = 2) by lia.
    destruct Ci as [-> | [-> | ->]]; destruct Cj as [-> | [-> | ->]]; reflexivity.
  - exists r, a', v'. split; [exact E|]. split; [|split].
    + apply (S 0 1); lia.
    + apply (S 0 2); lia.
    + apply (S 1 2); lia.
Defined.

(** *** The convergence test *)

(** A magnitude is below nothing that 0 is not below. *)
Lemma abs_below x e : (abs x <? e)%float = true -> (0 <? e)%float = true.
Proof.
  rewrite !ltb_spec, abs_spec.
  change (Prim2SF 0) with (S754_zero false).
  destruct (Prim2SF x) as [s | s | | s m ex]; destruct (Prim2SF e) as [s' | s' | | s' m' ex'];
    cbn; try discriminate; try reflexivity;
    destruct s'; cbn; try discriminate; try reflexivity.
Qed.

Lemma scan_nonneg a n p q e :
  (fst (fst (scan a n p q)) <? e)%float = true -> (0 <? e)%float = true.
Proof.
  unfold scan.
  destruct (Z.le_gt_cases 0 n) as [Hn | Hn];
    [|rewrite ints_nonpos by lia; cbn [fold_left fst]; tauto].
  pose (P := fun (_ : Z) (st : float * Z * Z) =>
          (fst (fst st) <? e)%float = true -> (0 <? e)%float = true).
  apply (fold_ints_ind P); [exact Hn | unfold P; cbn [fst]; tauto |].
  intros i st Hi Hst.
  apply (fold_ints_ind (fun _ => P 0)); [exact Hn | exact Hst |].
  intros j [[fm p'] q'] Hj Hfm. unfold P, scan_cell in *.
  destruct (Z.eqb_spec i j) as [E | D]; cbn [negb andb]; [exact Hfm|].
  destruct (fm <? abs (aget a (idx i n j)))%float; [|exact Hfm].
  cbn [fst]. apply abs_below.
Qed.

Lemma eig_loop_never_converges fuel :
  forall a v n eps jt l p q r a' v',
  (0 <? eps)%float = false ->
  eig_loop fuel a v n eps jt l p q = Some (r, a', v') -> r = -1.
Proof.
  induction fuel as [|fuel IH]; intros a v n eps jt l p q r a' v' H0;
    cbn [eig_loop]; [discriminate|].
  pose proof (scan_nonneg a n p q eps) as B.
  destruct (scan a n p q) as [[fm p'] q']. cbn [fst] in B.
  destruct (fm <? eps)%float; [rewrite B in H0 by reflexivity; discriminate|].
  destruct (jt <? l); [intros H; now injection H as <- _ _|].
  destruct (rotate a v n p' q') as [a1 v1]. now apply IH.
Qed.

(** X19: the solver reports convergence only for a positive [eps]: when
    [0 < eps] does not hold ([eps] zero, negative or not a number) it
    spends its budget and returns -1, whatever the matrix. *)
Theorem eig_needs_positive_eps a n v eps jt :
  (0 <? eps)%float = false -> jt < 2 ^ 31 - 1 ->
  exists a' v',
    realSymmetricMtxEig (S (Z.to_nat jt)) a n v eps jt = Some (-1, a', v').
Proof.
  intros H0 Hjt. unfold realSymmetricMtxEig.
  destruct (eig_loop_returns (S (Z.to_nat jt)) a (init_v n v) n eps jt 1 0 0)
    as (r & a' & v' & E & _);
    [exact Hjt | change (2 ^ 31) with 2147483648; lia | lia | lia |].
  exists a', v'. rewrite E.
  now rewrite (eig_loop_never_converges _ _ _ _ _ _ _ _ _ _ _ _ H0 E).
Qed.

Lemma eig_needs_positive_eps_witness :
  exists a' v',
    realSymmetricMtxEig 3 [3; 0; 0; 5]%float 2 [9; 9; 9; 9]%float 0%float 2
    = Some (-1, a', v').
Proof.
  apply (eig_needs_positive_eps [3; 0; 0; 5]%float 2 [9; 9; 9; 9]%float 0%float 2).
  - reflexivity.
  - change (2 ^ 31) with 2147483648. lia.
Defined.

End EigFacts.
